(** * pt5_uploader: a shallow embedding of [src/pt5_uploader.py]

    The uploader enumerates local files, joins a key prefix to every relative
    key, submits one upload per file to a worker pool and prints a summary.

    Conventions of the embedding.
    - Python [str] is [string]; a [pathlib.Path] is the list of its
      components, resolved against one base directory of a file-system tree.
    - Calls into the operating system and into the storage SDK are fields of
      a [World]: each returns a value or raises.
    - Effects are a writer over [event] (what was logged, opened, sent)
      combined with an error result; [try]/[except Exception] is
      [try_except].  [exn] lists subclasses of [Exception] only.
    - Building the SDK session, configuration and client objects makes no
      call to the outside and is left out.
    - The enumerator is given twice: on a tree where every [stat] succeeds
      ([get_files_to_upload], which the runs use) and with calls that can
      fail ([get_files_to_upload_os]); the two agree when nothing fails.
    - [os.path.join] is [posixpath.join].
    - Floating-point seconds and rates are exact rationals; Python's
      [ZeroDivisionError] is kept explicit in [py_truediv]. *)

From Stdlib Require Import String Ascii List Bool Arith ZArith QArith Lia Permutation.
From Stdlib Require Import Lqa Qround.
Import ListNotations.

Close Scope Q_scope.
Open Scope string_scope.
Open Scope list_scope.

(* ================================================================== *)
(** ** Exceptions and results *)

Inductive exn : Type :=
| FileNotFoundError (msg : string)
| NoCredentialsError
| ClientError (code : string)          (* e.response['Error']['Code'] *)
| TypeError
| ValueError
| KeyError
| ZeroDivisionError
| OSError (path : string)
| OtherException (msg : string).

Inductive result (A : Type) : Type :=
| Ok (a : A)
| Raise (e : exn).

Arguments Ok {A} a.
Arguments Raise {A} e.

(* ================================================================== *)
(** ** Strings: the few [str] methods the program uses *)

Definition slash : ascii := "/"%char.
Definition backslash : ascii := "\"%char.

(** [s.startswith(c)] for a one-character [c]. *)
Definition startswith (c : ascii) (s : string) : bool :=
  match s with
  | EmptyString => false
  | String a _ => Ascii.eqb a c
  end.

(** [s.endswith(c)] for a one-character [c]. *)
Fixpoint endswith (c : ascii) (s : string) : bool :=
  match s with
  | EmptyString => false
  | String a EmptyString => Ascii.eqb a c
  | String _ r => endswith c r
  end.

Definition is_empty (s : string) : bool :=
  match s with
  | EmptyString => true
  | String _ _ => false
  end.

(** [s.replace(old, new)] for one-character [old] and [new]. *)
Fixpoint replace_char (old new : ascii) (s : string) : string :=
  match s with
  | EmptyString => EmptyString
  | String a r =>
      String (if Ascii.eqb a old then new else a) (replace_char old new r)
  end.

(** Does the character occur in the string? *)
Fixpoint contains_char (c : ascii) (s : string) : bool :=
  match s with
  | EmptyString => false
  | String a r => Ascii.eqb a c || contains_char c r
  end.

(* ================================================================== *)
(** ** Key resolver: [os.path.join(args.prefix, s3_key).replace('\\', '/')] *)

(** [posixpath.join(a, b)]: a component that starts with the separator
    replaces what came before; otherwise a separator is added unless the
    path so far is empty or already ends with one. *)
Definition posix_join (a b : string) : string :=
  if startswith slash b then b
  else if is_empty a || endswith slash a then a ++ b
  else a ++ "/" ++ b.

Definition full_s3_key (prefix s3_key : string) : string :=
  replace_char backslash slash (posix_join prefix s3_key).

(* ================================================================== *)
(** ** File system and [pathlib] *)

(** A directory entry is a regular file (with its size), a directory, or
    something that exists but is neither (a socket, a device). *)
#[warnings="-register-all"]
Inductive node : Type :=
| File (size : Z)
| Special
| Dir (entries : list (string * node)).

Definition path : Type := list string.

(** [str(p)]: components joined by the separator, ["."] for the empty path. *)
Definition str_of_path (p : path) : string :=
  match p with
  | [] => "."
  | _ => String.concat "/" p
  end.

(** [p.name]: the last component, empty when there is none. *)
Definition path_name (p : path) : string := last p "".

Fixpoint lookup_entry (name : string) (es : list (string * node)) : option node :=
  match es with
  | [] => None
  | (n, c) :: r => if String.eqb n name then Some c else lookup_entry name r
  end.

Fixpoint lookup (n : node) (p : path) : option node :=
  match p with
  | [] => Some n
  | c :: p' =>
      match n with
      | Dir es =>
          match lookup_entry c es with
          | Some n' => lookup n' p'
          | None => None
          end
      | _ => None
      end
  end.

(** [p.exists()] *)
Definition path_exists (fs : node) (p : path) : bool :=
  match lookup fs p with
  | Some _ => true
  | None => false
  end.

(** [p.is_file()] on the node found at [p]. *)
Definition is_file (n : node) : bool :=
  match n with
  | File _ => true
  | _ => false
  end.

(** [p.glob("*")]: the children of a directory, as paths relative to it,
    each with the node it names; nothing for a non-directory. *)
Definition glob_star (n : node) : list (path * node) :=
  match n with
  | Dir es => map (fun e => ([fst e], snd e)) es
  | _ => []
  end.

(** [p.glob("**/*")]: the children of the directory, then the same for every
    subdirectory in turn. *)
Fixpoint glob_star_star (n : node) : list (path * node) :=
  match n with
  | Dir es =>
      map (fun e => ([fst e], snd e)) es ++
      (fix descend (l : list (string * node)) : list (path * node) :=
         match l with
         | [] => []
         | (nm, c) :: r =>
             map (fun pe => (nm :: fst pe, snd pe)) (glob_star_star c)
             ++ descend r
         end) es
  | _ => []
  end.

Definition glob (n : node) (recursive : bool) : list (path * node) :=
  if recursive then glob_star_star n else glob_star n.

(** [get_files_to_upload(source, recursive)]: pairs [(local_path, s3_key)],
    on a tree where every [stat] succeeds and every directory can be
    listed; [get_files_to_upload_os] below lets these calls fail. *)
Definition get_files_to_upload (fs : node) (source : path) (recursive : bool)
  : result (list (string * string)) :=
  match lookup fs source with
  | None =>
      Raise (FileNotFoundError
               ("Source path does not exist: " ++ str_of_path source))
  | Some (File _) => Ok [(str_of_path source, path_name source)]
  | Some n =>
      Ok (map (fun pe => (str_of_path (source ++ fst pe), str_of_path (fst pe)))
              (filter (fun pe => is_file (snd pe)) (glob n recursive)))
  end.

(* ================================================================== *)
(** ** Effects: what the program logs and which outside calls it makes *)

Inductive level : Type := DEBUG | INFO | WARNING | ERROR.

(** Log lines, by the place that writes them, with the values they show. *)
Inductive message : Type :=
| MsgCredentialsValid
| MsgCredentialsNotFound
| MsgInvalidAccessKeyId
| MsgInvalidSecretAccessKey
| MsgValidationFailed (e : exn)
| MsgValidationUnexpected (e : exn)
| MsgValidating
| MsgSourceNotSpecified
| MsgSourceDoesNotExist (source : string)
| MsgBucketNotSpecified
| MsgWouldUpload (local_path bucket s3_key : string)
| MsgStartingUpload (local_path : string)
| MsgCompletedUpload (local_path : string)
| MsgErrorUploading (local_path : string) (e : exn)
| MsgNoFilesFound
| MsgFoundFiles (n : nat)
| MsgPlanned (local_path bucket full_key : string)
| MsgUsingWorkers (n : nat)
| MsgPreparing
| MsgStartingExecutor (n : nat)
| MsgAllSubmitted
| MsgSuccessfullyUploaded (file_path : string)
| MsgSummary (total_files : nat) (total_size : Q * string) (duration : Q)
             (avg_rate : Q * string) (files_per_second : Q)
| MsgStartingProcess
| MsgErrorDuringUpload (e : exn)
| MsgError (e : exn).

Inductive event : Type :=
| EvListBuckets                                    (* s3_client.list_buckets() *)
| EvOpen (local_path : string)                     (* open(local_path, 'rb') *)
| EvPutObject (local_path bucket s3_key : string)  (* s3_client.upload_fileobj *)
| EvGetSize (file_path : string)                   (* os.path.getsize *)
| EvLog (lvl : level) (msg : message)
| EvProgress (bar : string) (n : nat).             (* tqdm update(n) *)

(** A network write is a call that sends an object to the service. *)
Definition is_network_write (ev : event) : bool :=
  match ev with
  | EvPutObject _ _ _ => true
  | _ => false
  end.

(** A file-system access made while uploading. *)
Definition is_file_access (ev : event) : bool :=
  match ev with
  | EvOpen _ | EvGetSize _ => true
  | _ => false
  end.

(** A computation: its outcome and the events it produced, in order. *)
Definition M (A : Type) : Type := (result A * list event)%type.

Definition ret {A : Type} (a : A) : M A := (Ok a, []).
Definition lift {A : Type} (r : result A) : M A := (r, []).
Definition emit (ev : event) : M unit := (Ok tt, [ev]).
Definition log (lvl : level) (msg : message) : M unit := emit (EvLog lvl msg).

Definition bind {A B : Type} (m : M A) (k : A -> M B) : M B :=
  match m with
  | (Ok a, t) => match k a with (r, t') => (r, t ++ t') end
  | (Raise e, t) => (Raise e, t)
  end.

(** [try: m except Exception as e: h e] *)
Definition try_except {A : Type} (m : M A) (h : exn -> M A) : M A :=
  match m with
  | (Ok a, t) => (Ok a, t)
  | (Raise e, t) => match h e with (r, t') => (r, t ++ t') end
  end.

Notation "x <- m ;; k" := (bind m (fun x => k))
  (at level 61, m at next level, right associativity).
Notation "m ;;; k" := (bind m (fun _ => k))
  (at level 61, right associativity).

(** [for x in l: body x], stopping at the first exception. *)
Fixpoint for_each {A : Type} (l : list A) (body : A -> M unit) : M unit :=
  match l with
  | [] => ret tt
  | x :: r => body x ;;; for_each r body
  end.

(** What lies outside the program during one run.  [fs] is what the
    enumeration sees; [open_rb] and [getsize] answer later, at upload time,
    and need not agree with it (a file can vanish in between). *)
Record World : Type := {
  fs : node;                                   (* the tree under the base directory *)
  list_buckets : result unit;                  (* boto3.client('s3').list_buckets() *)
  open_rb : string -> result unit;             (* open(local_path, 'rb') *)
  upload_fileobj : string -> string -> string -> result unit;
                                               (* by local path, bucket, key *)
  getsize : string -> result Z;                (* os.path.getsize(file_path) *)
  start_time : Q;                              (* time.time() before the uploads *)
  end_time : Q                                 (* time.time() in the summary *)
}.

(* ================================================================== *)
(** ** Credential validator *)

Definition validate_aws_credentials (w : World) : M bool :=
  try_except
    (emit EvListBuckets ;;;
     lift (list_buckets w) ;;;
     log INFO MsgCredentialsValid ;;;
     ret true)
    (fun e =>
       match e with
       | NoCredentialsError =>
           log ERROR MsgCredentialsNotFound ;;; ret false
       | ClientError error_code =>
           (if String.eqb error_code "InvalidAccessKeyId" then
              log ERROR MsgInvalidAccessKeyId
            else if String.eqb error_code "SignatureDoesNotMatch" then
              log ERROR MsgInvalidSecretAccessKey
            else
              log ERROR (MsgValidationFailed e)) ;;;
           ret false
       | _ =>
           log ERROR (MsgValidationUnexpected e) ;;; ret false
       end).

(* ================================================================== *)
(** ** Upload of one file *)

Definition upload_file (w : World) (local_path bucket s3_key : string)
                       (dry_run : bool) : M bool :=
  try_except
    (if dry_run then
       log INFO (MsgWouldUpload local_path bucket s3_key) ;;; ret true
     else
       log DEBUG (MsgStartingUpload local_path) ;;;
       emit (EvOpen local_path) ;;;
       lift (open_rb w local_path) ;;;
       emit (EvPutObject local_path bucket s3_key) ;;;
       lift (upload_fileobj w local_path bucket s3_key) ;;;
       log DEBUG (MsgCompletedUpload local_path) ;;;
       ret true)
    (fun e => log ERROR (MsgErrorUploading local_path e) ;;; ret false).

(* ================================================================== *)
(** ** Summary reporter *)

(** Python's [a / b]. *)
Definition py_truediv (a b : Q) : result Q :=
  if Qeq_bool b 0 then Raise ZeroDivisionError else Ok (a / b)%Q.

(** [format_size]: divide by 1024 until the value is below 1024; the unit
    reached is returned with the value that is handed to the [:.2f]
    rendering ([format_size_shown] below gives the number displayed). *)
Fixpoint format_size_units (size_bytes : Q) (units : list string) : Q * string :=
  match units with
  | [] => (size_bytes, "PB")
  | unit :: rest =>
      if Qlt_le_dec size_bytes 1024 then (size_bytes, unit)
      else format_size_units (size_bytes / 1024)%Q rest
  end.

Definition format_size (size_bytes : Q) : Q * string :=
  format_size_units size_bytes ["B"; "KB"; "MB"; "GB"; "TB"].

Record Summary : Type := {
  duration : Q;
  avg_rate : Q;
  files_per_second : Q
}.

(** [print_summary_report(total_files, total_size, start_time)]; the clock
    reading it takes first is [now]. *)
Definition print_summary_report (total_files : nat) (total_size : Z)
                                (start now : Q) : M Summary :=
  let duration := (now - start)%Q in
  avg_rate <- lift (if Qlt_le_dec 0 duration
                    then py_truediv (inject_Z total_size) duration
                    else Ok 0%Q) ;;
  files_per_second <- lift (if Qlt_le_dec 0 duration
                            then py_truediv (inject_Z (Z.of_nat total_files)) duration
                            else Ok 0%Q) ;;
  log INFO (MsgSummary total_files (format_size (inject_Z total_size)) duration
                       (format_size avg_rate) files_per_second) ;;;
  ret {| duration := duration; avg_rate := avg_rate;
         files_per_second := files_per_second |}.

(* ================================================================== *)
(** ** Worker pool

    A submitted call runs to completion and leaves its outcome in a future;
    futures are told apart by the order of submission.  The order in which
    [as_completed] hands the futures back is not fixed by the program: it is
    the parameter [as_completed] of [upload_files]. *)

Record Future : Type := {
  fid : nat;
  fresult : result bool                         (* what future.result() gives *)
}.

(** [future_to_file]: an insertion-ordered dict from futures to local paths. *)
Definition FutureDict : Type := list (Future * string).

Definition dict_keys (d : FutureDict) : list Future := map fst d.

(** [d[f]] *)
Fixpoint dict_get (d : FutureDict) (f : Future) : result string :=
  match d with
  | [] => Raise KeyError
  | (g, v) :: r => if Nat.eqb (fid g) (fid f) then Ok v else dict_get r f
  end.

(** [ThreadPoolExecutor(max_workers=n)] *)
Definition new_executor (max_workers : nat) : result unit :=
  if Nat.eqb max_workers 0 then Raise ValueError else Ok tt.

(** [executor.submit(upload_file, s3_client, local_path, bucket, s3_key,
    dry_run)] as the [next]-th submission.  The call is run at once, which
    is one of the schedules the pool allows: the order in which the
    uploads of different files appear in the trace is that of this
    schedule, not one the program fixes. *)
Definition submit (w : World) (next : nat) (local_path bucket s3_key : string)
                  (dry_run : bool) : M Future :=
  let run := upload_file w local_path bucket s3_key dry_run in
  (Ok {| fid := next; fresult := fst run |}, snd run).

(** [[executor.submit(...) for local_path, s3_key in batch]] *)
Fixpoint submit_batch (w : World) (bucket : string) (dry_run : bool)
                      (next : nat) (batch : list (string * string))
  : M (list Future) :=
  match batch with
  | [] => ret []
  | (local_path, s3_key) :: rest =>
      f <- submit w next local_path bucket s3_key dry_run ;;
      futures <- submit_batch w bucket dry_run (S next) rest ;;
      ret (f :: futures)
  end.

(** [range(start, stop, step)] for a positive step; [fuel] bounds the number
    of elements, and [stop] is always enough. *)
Fixpoint range_from (fuel start stop step : nat) : list nat :=
  match fuel with
  | O => []
  | S fuel' =>
      if Nat.ltb start stop
      then start :: range_from fuel' (start + step) stop step
      else []
  end.

Definition py_range (stop step : nat) : list nat := range_from stop 0 stop step.

(** [l[i:j]] *)
Definition slice {A : Type} (l : list A) (i j : nat) : list A :=
  firstn (j - i) (skipn i l).

(** [for future, (local_path, _) in zip(futures, batch):
       future_to_file[future] = local_path]
    (every future is new, so each assignment adds an item at the end). *)
Definition map_futures (future_to_file : FutureDict) (futures : list Future)
                       (batch : list (string * string)) : FutureDict :=
  future_to_file ++ map (fun fb => (fst fb, fst (snd fb))) (combine futures batch).

(** The submission loop, one round per start index [i]. *)
Fixpoint submit_loop (w : World) (bucket : string) (dry_run : bool)
                     (batch_size : nat) (upload_tasks : list (string * string))
                     (starts : list nat) (next : nat)
                     (future_to_file : FutureDict) : M FutureDict :=
  match starts with
  | [] => ret future_to_file
  | i :: starts' =>
      let batch := slice upload_tasks i (i + batch_size) in
      futures <- submit_batch w bucket dry_run next batch ;;
      emit (EvProgress "Submitting files" (length batch)) ;;;
      submit_loop w bucket dry_run batch_size upload_tasks starts'
                  (next + length batch)
                  (map_futures future_to_file futures batch)
  end.

(** Lines 343-361 with the batch size as written in the source. *)
Definition batch_size : nat := 1000.

Definition submit_files (w : World) (bucket : string) (dry_run : bool)
                        (upload_tasks : list (string * string)) : M FutureDict :=
  submit_loop w bucket dry_run batch_size upload_tasks
              (py_range (length upload_tasks) batch_size) 0 [].

(** The state the completion loop updates: [success] and [total_size]. *)
Definition RunState : Type := (bool * Z)%type.

(** One round of [for future in as_completed(future_to_file)]. *)
Definition handle_future (w : World) (future_to_file : FutureDict)
                         (st : RunState) (future : Future) : M RunState :=
  file_path <- lift (dict_get future_to_file future) ;;
  try_except
    (r <- lift (fresult future) ;;
     let success := if negb r then false else fst st in
     emit (EvGetSize file_path) ;;;
     file_size <- lift (getsize w file_path) ;;
     emit (EvProgress "Uploading files" 1) ;;;
     log DEBUG (MsgSuccessfullyUploaded file_path) ;;;
     ret (success, (snd st + file_size)%Z))
    (fun e =>
       log ERROR (MsgErrorUploading file_path e) ;;;
       emit (EvProgress "Uploading files" 1) ;;;
       ret (false, snd st)).

Fixpoint collect (w : World) (future_to_file : FutureDict)
                 (order : list Future) (st : RunState) : M RunState :=
  match order with
  | [] => ret st
  | future :: rest =>
      st' <- handle_future w future_to_file st future ;;
      collect w future_to_file rest st'
  end.

(* ================================================================== *)
(** ** Command line arguments and the top level *)

(** [argparse.Namespace]; an option that is [None] or the empty string is
    [None] here ([source], [bucket]). *)
Record Args : Type := {
  source : option path;
  bucket : option string;
  prefix : string;
  recursive : bool;
  dry_run : bool;
  verbose : bool;
  validate : bool
}.

(** The bucket as it is shown and passed on. *)
Definition bucket_str (args : Args) : string :=
  match bucket args with
  | Some b => b
  | None => "None"
  end.

Definition validate_args (w : World) (args : Args) : M bool :=
  match source args with
  | None => log ERROR MsgSourceNotSpecified ;;; ret false
  | Some src =>
      if negb (path_exists (fs w) src) then
        log ERROR (MsgSourceDoesNotExist (str_of_path src)) ;;; ret false
      else
        match bucket args with
        | None => log ERROR MsgBucketNotSpecified ;;; ret false
        | Some _ => ret true
        end
  end.

(** Lines 363-385: wait for the futures, add up, report. *)
Definition complete_run (w : World) (as_completed : list Future -> list Future)
                        (total_files : nat) (future_to_file : FutureDict) : M bool :=
  log INFO MsgAllSubmitted ;;;
  st <- collect w future_to_file (as_completed (dict_keys future_to_file))
                (true, 0%Z) ;;
  print_summary_report total_files (snd st) (start_time w) (end_time w) ;;;
  ret (fst st).

(** The live part of [upload_files] (lines 322-385); [submit_all] is the
    submission loop of lines 343-361. *)
Definition upload_live_with
    (submit_all : World -> string -> bool -> list (string * string) -> M FutureDict)
    (w : World) (args : Args) (as_completed : list Future -> list Future)
    (files : list (string * string)) : M bool :=
  let total_files := length files in
  log INFO (MsgFoundFiles total_files) ;;;
  let max_workers := Nat.min 32 total_files in
  log INFO (MsgUsingWorkers max_workers) ;;;
  log INFO MsgPreparing ;;;
  let upload_tasks :=
    map (fun f => (fst f, full_s3_key (prefix args) (snd f))) files in
  log INFO (MsgStartingExecutor max_workers) ;;;
  lift (new_executor max_workers) ;;;
  future_to_file <- submit_all w (bucket_str args) (dry_run args) upload_tasks ;;
  complete_run w as_completed total_files future_to_file.

Definition upload_live : World -> Args -> (list Future -> list Future) ->
                         list (string * string) -> M bool :=
  upload_live_with submit_files.

Definition upload_files (w : World) (args : Args)
                        (as_completed : list Future -> list Future) : M bool :=
  try_except
    (files <- lift (match source args with
                    | Some src => get_files_to_upload (fs w) src (recursive args)
                    | None => Raise TypeError
                    end) ;;
     match files with
     | [] => log WARNING MsgNoFilesFound ;;; ret true
     | _ =>
         if dry_run args then
           log INFO (MsgFoundFiles (length files)) ;;;
           for_each files (fun f =>
             let full_key := full_s3_key (prefix args) (snd f) in
             log INFO (MsgPlanned (fst f) (bucket_str args) full_key)) ;;;
           ret true
         else upload_live w args as_completed files
     end)
    (fun e => log ERROR (MsgErrorDuringUpload e) ;;; ret false).

(** [main] from the parsed arguments on (lines 397-417): the exit status.
    [parser.parse_args()] of line 395 comes before and is not part of it:
    on a bad command line it leaves the process with status 2.
    ([--verbose] only changes the log level.) *)
Definition main (w : World) (args : Args)
                (as_completed : list Future -> list Future) : M Z :=
  if validate args then
    log INFO MsgValidating ;;;
    ok <- validate_aws_credentials w ;;
    ret (if ok then 0%Z else 1%Z)
  else
    args_ok <- validate_args w args ;;
    if negb args_ok then ret 1%Z
    else
      creds_ok <- validate_aws_credentials w ;;
      if negb creds_ok then ret 1%Z
      else
        try_except
          (log INFO MsgStartingProcess ;;;
           success <- upload_files w args as_completed ;;
           ret (if success then 0%Z else 1%Z))
          (fun e => log ERROR (MsgError e) ;;; ret 1%Z).

(* ================================================================== *)
(** ** Definitions used to state the properties *)

(** The submission as the specification describes it without batching: all
    tasks are handed to the pool in one go. *)
Definition submit_unbatched (w : World) (bucket : string) (dry_run : bool)
                            (upload_tasks : list (string * string)) : M FutureDict :=
  futures <- submit_batch w bucket dry_run 0 upload_tasks ;;
  ret (map_futures [] futures upload_tasks).

Definition upload_live_unbatched : World -> Args -> (list Future -> list Future) ->
                                   list (string * string) -> M bool :=
  upload_live_with submit_unbatched.

(** Whether one upload goes through: the file opens and the transfer
    returns. *)
Definition upload_outcome (w : World) (local_path bucket s3_key : string)
                          (dry_run : bool) : bool :=
  if dry_run then true
  else match open_rb w local_path, upload_fileobj w local_path bucket s3_key with
       | Ok _, Ok _ => true
       | _, _ => false
       end.

(** The futures and the dict that submitting [tasks] from number [next] on
    leaves behind. *)
Fixpoint futures_from (w : World) (bucket : string) (dry_run : bool)
                      (next : nat) (tasks : list (string * string)) : list Future :=
  match tasks with
  | [] => []
  | t :: rest =>
      {| fid := next;
         fresult := Ok (upload_outcome w (fst t) bucket (snd t) dry_run) |}
      :: futures_from w bucket dry_run (S next) rest
  end.

Definition dict_from (w : World) (bucket : string) (dry_run : bool)
                     (next : nat) (tasks : list (string * string)) : FutureDict :=
  combine (futures_from w bucket dry_run next tasks) (map fst tasks).

(** What the completion loop makes of one future whose file is [file_path]. *)
Definition future_good (w : World) (file_path : string) (f : Future) : bool :=
  match fresult f, getsize w file_path with
  | Ok true, Ok _ => true
  | _, _ => false
  end.

Definition future_size (w : World) (file_path : string) (f : Future) : Z :=
  match fresult f, getsize w file_path with
  | Ok _, Ok z => z
  | _, _ => 0%Z
  end.

(** The file a future stands for, by the dict. *)
Definition file_of (d : FutureDict) (f : Future) : string :=
  match dict_get d f with
  | Ok file_path => file_path
  | Raise _ => ""
  end.

(** The events of the upload of one task. *)
Definition upload_events (w : World) (bucket : string) (dry_run : bool)
                         (task : string * string) : list event :=
  snd (upload_file w (fst task) bucket (snd task) dry_run).

(** Ticks a progress bar has received. *)
Fixpoint progress_total (bar : string) (t : list event) : nat :=
  match t with
  | [] => 0
  | EvProgress b n :: r =>
      (if String.eqb b bar then n else 0) + progress_total bar r
  | _ :: r => progress_total bar r
  end.

(** The completion loop wrote a line about this file. *)
Definition reports_file (file_path : string) (ev : event) : bool :=
  match ev with
  | EvLog _ (MsgSuccessfullyUploaded p) => String.eqb p file_path
  | EvLog _ (MsgErrorUploading p _) => String.eqb p file_path
  | _ => false
  end.

Definition is_summary_line (ev : event) : bool :=
  match ev with
  | EvLog _ (MsgSummary _ _ _ _ _) => true
  | _ => false
  end.

(** The keys the resolver gives to enumerated files: [upload_tasks]. *)
Definition resolve_tasks (args : Args) (files : list (string * string))
  : list (string * string) :=
  map (fun f => (fst f, full_s3_key (prefix args) (snd f))) files.

Definition is_progress (ev : event) : bool :=
  match ev with
  | EvProgress _ _ => true
  | _ => false
  end.

(** The trace without the progress-bar ticks. *)
Definition without_progress (t : list event) : list event :=
  filter (fun ev => negb (is_progress ev)) t.

(** File names as a file system has them: not empty, no separator inside. *)
Definition name_ok (nm : string) : bool :=
  negb (is_empty nm) && negb (contains_char slash nm).

Fixpoint wf_names (n : node) : bool :=
  match n with
  | Dir es =>
      (fix all_ok (l : list (string * node)) : bool :=
         match l with
         | [] => true
         | (nm, c) :: r => name_ok nm && wf_names c && all_ok r
         end) es
  | _ => true
  end.

(* ================================================================== *)
(** ** Sample inputs *)

(** A directory with [a.txt] (10 bytes), [sub/b.txt] (20 bytes) and a named
    pipe. *)
Definition sample_tree : node :=
  Dir [("a.txt", File 10); ("sub", Dir [("b.txt", File 20)]); ("pipe", Special)].

Definition sample_getsize (file_path : string) : result Z :=
  if String.eqb file_path "a.txt" then Ok 10%Z
  else if String.eqb file_path "sub/b.txt" then Ok 20%Z
  else Raise (OSError file_path).

(** Everything works. *)
Definition sample_world : World :=
  {| fs := sample_tree;
     list_buckets := Ok tt;
     open_rb := fun _ => Ok tt;
     upload_fileobj := fun _ _ _ => Ok tt;
     getsize := sample_getsize;
     start_time := 100%Q;
     end_time := 102%Q |}.

(** No credentials are configured. *)
Definition no_credentials_world : World :=
  {| fs := sample_tree;
     list_buckets := Raise NoCredentialsError;
     open_rb := fun _ => Ok tt;
     upload_fileobj := fun _ _ _ => Ok tt;
     getsize := sample_getsize;
     start_time := 100%Q;
     end_time := 102%Q |}.

(** [a.txt] was deleted after the enumeration: it can be neither opened nor
    sized. *)
Definition deleted_file_world : World :=
  {| fs := sample_tree;
     list_buckets := Ok tt;
     open_rb := fun p => if String.eqb p "a.txt"
                         then Raise (FileNotFoundError p) else Ok tt;
     upload_fileobj := fun _ _ _ => Ok tt;
     getsize := fun p => if String.eqb p "a.txt"
                         then Raise (FileNotFoundError p) else sample_getsize p;
     start_time := 100%Q;
     end_time := 102%Q |}.

Definition sample_args : Args :=
  {| source := Some [];
     bucket := Some "mybucket";
     prefix := "data";
     recursive := true;
     dry_run := false;
     verbose := false;
     validate := false |}.

Definition sample_dry_run_args : Args :=
  {| source := Some [];
     bucket := Some "mybucket";
     prefix := "data";
     recursive := true;
     dry_run := true;
     verbose := false;
     validate := false |}.

(** Two completion orders: as submitted, and last submitted first. *)
Definition in_submission_order (futures : list Future) : list Future := futures.
Definition in_reverse_order (futures : list Future) : list Future := rev futures.

(* ================================================================== *)
(** ** Defaults from the environment *)

(** [os.environ]: a variable is set to a value or not set. *)
Definition Env : Type := string -> option string.

(** [os.getenv(name, default)] *)
Definition getenv (env : Env) (name default : string) : string :=
  match env name with
  | Some v => v
  | None => default
  end.

(** [s.split(c)] for a one-character [c]: the pieces between occurrences
    of [c], at least one piece. *)
Fixpoint split_char (c : ascii) (s : string) : list string :=
  match s with
  | EmptyString => [EmptyString]
  | String a r =>
      if Ascii.eqb a c then EmptyString :: split_char c r
      else match split_char c r with
           | piece :: pieces => String a piece :: pieces
           | [] => [String a EmptyString]
           end
  end.

(** [s[n:]] *)
Fixpoint drop (n : nat) (s : string) : string :=
  match n, s with
  | O, _ => s
  | S n', String _ r => drop n' r
  | S _, EmptyString => EmptyString
  end.

(** [get_default_bucket()]: [None] is Python's [None]; [parts[0]] raises
    [IndexError] on an empty list. *)
Definition get_default_bucket (env : Env) : result (option string) :=
  let upload_url := getenv env "AWS_UPLOAD_URL" "" in
  if String.prefix "s3://" upload_url then
    let parts := split_char slash (drop 5 upload_url) in
    match parts with
    | part0 :: _ => Ok (Some part0)
    | [] => Raise (OtherException "IndexError")
    end
  else Ok None.

(** [get_default_prefix()] *)
Definition get_default_prefix (env : Env) : string :=
  let upload_url := getenv env "AWS_UPLOAD_URL" "" in
  if String.prefix "s3://" upload_url then
    let parts := split_char slash (drop 5 upload_url) in
    if Nat.ltb 1 (length parts) then String.concat "/" (tl parts)
    else ""
  else "".

(* ================================================================== *)
(** ** Further definitions used to state properties *)

(** Names are unique within every directory of the tree. *)
Fixpoint unique_names (n : node) : Prop :=
  match n with
  | Dir es =>
      NoDup (map fst es) /\
      (fix all_unique (l : list (string * node)) : Prop :=
         match l with
         | [] => True
         | (_, c) :: r => unique_names c /\ all_unique r
         end) es
  | _ => True
  end.

Definition is_list_buckets (ev : event) : bool :=
  match ev with
  | EvListBuckets => true
  | _ => false
  end.

Definition is_error_line (ev : event) : bool :=
  match ev with
  | EvLog ERROR _ => true
  | _ => false
  end.

(** The size the completion loop adds for a file: what [getsize] gives, or
    nothing when it raises. *)
Definition task_size (w : World) (task : string * string) : Z :=
  match getsize w (fst task) with
  | Ok z => z
  | Raise _ => 0%Z
  end.

(** A task counts as good when its upload went through and its size could
    be read. *)
Definition task_good (w : World) (bucket : string) (dry_run : bool)
                     (task : string * string) : bool :=
  upload_outcome w (fst task) bucket (snd task) dry_run &&
  match getsize w (fst task) with
  | Ok _ => true
  | Raise _ => false
  end.

(** The transfer a live upload of one task starts: none when the file
    cannot be opened. *)
Definition task_writes (w : World) (bucket : string) (task : string * string)
  : list event :=
  match open_rb w (fst task) with
  | Ok _ => [EvPutObject (fst task) bucket (snd task)]
  | Raise _ => []
  end.

(** The same arguments with [--dry-run] set or not. *)
Definition with_dry_run (dry : bool) (args : Args) : Args :=
  {| source := source args;
     bucket := bucket args;
     prefix := prefix args;
     recursive := recursive args;
     dry_run := dry;
     verbose := verbose args;
     validate := validate args |}.

(** Sum of a list of sizes. *)
Definition zsum (l : list Z) : Z := fold_right Z.add 0%Z l.

(** The bytes a run adds up for its tasks. *)
Definition total_bytes (w : World) (tasks : list (string * string)) : Z :=
  zsum (map (task_size w) tasks).

(** The batches of the submission loop. *)
Definition batches {A : Type} (size : nat) (l : list A) : list (list A) :=
  map (fun i => slice l i (i + size)) (py_range (length l) size).

(** 1024 to the power [k]. *)
Fixpoint kib (k : nat) : Q :=
  match k with
  | O => 1%Q
  | S k' => (1024 * kib k')%Q
  end.

Definition size_units : list string := ["B"; "KB"; "MB"; "GB"; "TB"].

(** More sample inputs. *)

Definition sample_env : Env :=
  fun name => if String.eqb name "AWS_UPLOAD_URL"
              then Some "s3://mybucket/ifcb/raw" else None.

(** A directory that holds only a subdirectory. *)
Definition nested_only_tree : node :=
  Dir [("sub", Dir [("b.txt", File 20)])].

Definition nested_only_world : World :=
  {| fs := nested_only_tree;
     list_buckets := Ok tt;
     open_rb := fun _ => Ok tt;
     upload_fileobj := fun _ _ _ => Ok tt;
     getsize := sample_getsize;
     start_time := 100%Q;
     end_time := 102%Q |}.

Definition flat_args : Args :=
  {| source := Some [];
     bucket := Some "mybucket";
     prefix := "data";
     recursive := false;
     dry_run := false;
     verbose := false;
     validate := false |}.

Definition validate_only_args : Args :=
  {| source := None;
     bucket := None;
     prefix := "";
     recursive := false;
     dry_run := false;
     verbose := false;
     validate := true |}.

Definition missing_source_args : Args :=
  {| source := Some ["nowhere"];
     bucket := Some "mybucket";
     prefix := "data";
     recursive := false;
     dry_run := false;
     verbose := false;
     validate := false |}.

(* ================================================================== *)
(** ** The enumerator when file-system calls can fail

    [get_files_to_upload] above reads a tree on which every [stat]
    succeeds.  Here the calls behind [exists()], [is_file()] and [glob()]
    can fail as they do on a real file system: [stat] with an error number,
    and the listing of a directory by being refused. *)

Inductive errno : Type :=
| ENOENT | ENOTDIR | EBADF | ELOOP          (* what pathlib takes for "not there" *)
| EACCES | ENAMETOOLONG | EIO.

(** [pathlib._ignore_error]: the errors [exists()] and [is_file()] turn
    into [False]; every other [OSError] they raise again. *)
Definition ignore_error (e : errno) : bool :=
  match e with
  | ENOENT | ENOTDIR | EBADF | ELOOP => true
  | _ => false
  end.

(** A file system as the process sees it: the tree, the error (if any) with
    which [stat] on a path fails first, and the directories whose listing
    is refused ([PermissionError] from [scandir]). *)
Record OsView : Type := {
  os_tree : node;
  stat_fault : path -> option errno;
  cannot_list : path -> bool
}.

Inductive stat_result : Type :=
| StatOk (n : node)
| StatError (e : errno).

(** [os.stat(p)] *)
Definition os_stat (o : OsView) (p : path) : stat_result :=
  match stat_fault o p with
  | Some e => StatError e
  | None =>
      match lookup (os_tree o) p with
      | Some n => StatOk n
      | None => StatError ENOENT
      end
  end.

(** [p.exists()]: [False] on an ignored error, the [OSError] otherwise. *)
Definition os_exists (o : OsView) (p : path) : result bool :=
  match os_stat o p with
  | StatOk _ => Ok true
  | StatError e =>
      if ignore_error e then Ok false else Raise (OSError (str_of_path p))
  end.

(** [p.is_file()] *)
Definition os_is_file (o : OsView) (p : path) : result bool :=
  match os_stat o p with
  | StatOk n => Ok (is_file n)
  | StatError e =>
      if ignore_error e then Ok false else Raise (OSError (str_of_path p))
  end.

(** An entry at relative path [q] below [source] is reached by the glob
    when every directory from [source] down to the entry's parent can be
    listed; a refused listing is swallowed by [glob] and yields nothing. *)
Definition listable (o : OsView) (source q : path) : bool :=
  forallb (fun k => negb (cannot_list o (source ++ firstn k q)))
          (seq 0 (length q)).

(** [source_path.glob(pattern)] *)
Definition os_glob (o : OsView) (source : path) (recursive : bool)
  : list (path * node) :=
  match lookup (os_tree o) source with
  | Some n => filter (fun pe => listable o source (fst pe)) (glob n recursive)
  | None => []
  end.

(** The loop of lines 214-218: [is_file()] on every path the glob yields,
    in order; the first error ends the loop. *)
Fixpoint collect_files (o : OsView) (source : path) (entries : list (path * node))
  : result (list (string * string)) :=
  match entries with
  | [] => Ok []
  | (q, _) :: rest =>
      match os_is_file o (source ++ q) with
      | Raise e => Raise e
      | Ok b =>
          match collect_files o source rest with
          | Raise e => Raise e
          | Ok files =>
              Ok (if b
                  then (str_of_path (source ++ q), str_of_path q) :: files
                  else files)
          end
      end
  end.

(** [get_files_to_upload(source, recursive)] with failing calls. *)
Definition get_files_to_upload_os (o : OsView) (source : path) (recursive : bool)
  : result (list (string * string)) :=
  match os_exists o source with
  | Raise e => Raise e
  | Ok false =>
      Raise (FileNotFoundError
               ("Source path does not exist: " ++ str_of_path source))
  | Ok true =>
      match os_is_file o source with
      | Raise e => Raise e
      | Ok true => Ok [(str_of_path source, path_name source)]
      | Ok false => collect_files o source (os_glob o source recursive)
      end
  end.

(** No call fails. *)
Definition fault_free (o : OsView) : Prop :=
  (forall p, stat_fault o p = None) /\ (forall p, cannot_list o p = false).

(** Sample file systems with failing calls. *)






(* ================================================================== *)
(** ** What [format_size] displays *)

(** The nearest integer, ties to the even one. *)
Definition round_half_even (x : Q) : Z :=
  let f := Qfloor x in
  match Qcompare (x - inject_Z f) (1 # 2) with
  | Lt => f
  | Gt => (f + 1)%Z
  | Eq => if Z.even f then f else (f + 1)%Z
  end.

(** The number that [f"{x:.2f}"] writes: [x] rounded to hundredths. *)
Definition render_2f (x : Q) : Q :=
  (inject_Z (round_half_even (x * 100)) / 100)%Q.

(** The number and the unit in the string [format_size] returns. *)
Definition format_size_shown (size_bytes : Q) : Q * string :=
  (render_2f (fst (format_size size_bytes)), snd (format_size size_bytes)).

(* ================================================================== *)
(** * Properties *)

(** ** The effect monad *)

Arguments bind : simpl never.
Arguments try_except : simpl never.
Arguments emit : simpl never.
Arguments log : simpl never.
Arguments lift : simpl never.
Arguments ret : simpl never.

Lemma bind_ok {A B : Type} (m : M A) (k : A -> M B) (a : A) :
  fst m = Ok a -> bind m k = (fst (k a), snd m ++ snd (k a)).
Proof.
  destruct m as [r t]; simpl; intros ->; unfold bind.
  destruct (k a); reflexivity.
Qed.

Lemma bind_raise {A B : Type} (m : M A) (k : A -> M B) (e : exn) :
  fst m = Raise e -> bind m k = (Raise e, snd m).
Proof.
  destruct m as [r t]; simpl; intros ->; reflexivity.
Qed.

Lemma bind_emit {B : Type} (ev : event) (k : unit -> M B) :
  bind (emit ev) k = (fst (k tt), ev :: snd (k tt)).
Proof. unfold bind, emit. destruct (k tt); reflexivity. Qed.

Lemma bind_log {B : Type} (lvl : level) (msg : message) (k : unit -> M B) :
  bind (log lvl msg) k = (fst (k tt), EvLog lvl msg :: snd (k tt)).
Proof. apply bind_emit. Qed.

Lemma bind_ret {A B : Type} (a : A) (k : A -> M B) : bind (ret a) k = k a.
Proof. unfold bind, ret. destruct (k a); reflexivity. Qed.

Lemma bind_lift_ok {A B : Type} (a : A) (k : A -> M B) :
  bind (lift (Ok a)) k = k a.
Proof. apply bind_ret. Qed.

Lemma bind_lift_raise {A B : Type} (e : exn) (k : A -> M B) :
  bind (lift (Raise e)) k = (Raise e, []).
Proof. reflexivity. Qed.

Lemma try_except_ok {A : Type} (m : M A) (h : exn -> M A) (a : A) :
  fst m = Ok a -> try_except m h = m.
Proof. destruct m as [r t]; simpl; intros ->; reflexivity. Qed.

Lemma try_except_raise {A : Type} (m : M A) (h : exn -> M A) (e : exn) :
  fst m = Raise e -> try_except m h = (fst (h e), snd m ++ snd (h e)).
Proof.
  destruct m as [r t]; simpl; intros ->; unfold try_except.
  destruct (h e); reflexivity.
Qed.

(** Run a computation whose shape is known. *)
Ltac mrun := unfold try_except, bind, log, emit, lift, ret; cbn.

(* ================================================================== *)
(** ** Key resolver *)

Section KeyResolver.

Local Open Scope string_scope.

Local Abbreviation norm := (replace_char backslash slash).

Lemma replace_char_app (old new : ascii) (s t : string) :
  replace_char old new (s ++ t) = replace_char old new s ++ replace_char old new t.
Proof.
  induction s as [|a s IH]; simpl; [reflexivity | now rewrite IH].
Qed.

Lemma replace_char_absent (old new : ascii) (s : string) :
  contains_char old s = false -> replace_char old new s = s.
Proof.
  induction s as [|a s IH]; simpl; [reflexivity|].
  intros H. apply orb_false_iff in H as [Ha Hs].
  rewrite Ha, IH by assumption. reflexivity.
Qed.

Lemma startswith_norm_slash (s : string) :
  startswith slash (norm s) = startswith slash s || startswith backslash s.
Proof.
  destruct s as [|a s]; simpl; [reflexivity|].
  destruct (Ascii.eqb a backslash) eqn:E.
  - apply Ascii.eqb_eq in E; subst a. reflexivity.
  - now rewrite orb_false_r.
Qed.

Lemma startswith_app (c : ascii) (s t : string) :
  startswith c (s ++ t) = if is_empty s then startswith c t else startswith c s.
Proof. destruct s; reflexivity. Qed.

Lemma is_empty_norm (s : string) : is_empty (norm s) = is_empty s.
Proof. destruct s; reflexivity. Qed.

(** The resolved key spelled out: a key that starts with the separator
    stands alone; otherwise prefix, at most one added separator, key. *)
Lemma full_s3_key_shape (prefix key : string) :
  full_s3_key prefix key =
    if startswith slash key then norm key
    else norm prefix
         ++ (if is_empty prefix || endswith slash prefix then "" else "/")
         ++ norm key.
Proof.
  unfold full_s3_key, posix_join.
  destruct (startswith slash key); [reflexivity|].
  destruct (is_empty prefix || endswith slash prefix);
    now rewrite !replace_char_app.
Qed.

(** When the resolved key starts with the separator. *)
Lemma full_s3_key_leading_slash (prefix key : string) :
  startswith slash (full_s3_key prefix key) =
    if startswith slash key then true
    else if is_empty prefix
         then startswith backslash key
         else startswith slash prefix || startswith backslash prefix.
Proof.
  rewrite full_s3_key_shape.
  destruct (startswith slash key) eqn:Hk.
  - rewrite startswith_norm_slash, Hk. reflexivity.
  - rewrite startswith_app, is_empty_norm.
    destruct (is_empty prefix) eqn:He.
    + simpl. rewrite startswith_norm_slash, Hk. reflexivity.
    + apply startswith_norm_slash.
Qed.

End KeyResolver.

(** C1, as the claim states it, fails: a relative key with a leading
    separator discards the prefix, so resolving prefix ["a/"] with key
    ["/b"] gives ["/b"], not ["a/b"]. *)
Lemma resolve_leading_separator_counterexample :
  full_s3_key "a/" "/b" = "/b" /\ full_s3_key "a/" "/b" <> "a/b".
Proof. split; [reflexivity | discriminate]. Qed.

(** C1 (amended): the resolver is [os.path.join] followed by turning every
    backslash into a forward slash.  [resolve("a", "b")] and
    [resolve("a/", "b")] yield ["a/b"]; for a relative key that does not
    start with the separator the result is the prefix, one separator unless
    the prefix is empty or already ends with one, and the key; an empty
    prefix yields the relative key, unchanged when it holds no backslash; a
    relative key that starts with the separator replaces the prefix, so
    [resolve("a/", "/b")] yields ["/b"]. *)
Theorem full_s3_key_joins :
  full_s3_key "a" "b" = "a/b" /\
  full_s3_key "a/" "b" = "a/b" /\
  full_s3_key "a/" "/b" = "/b" /\
  (forall prefix key : string,
      startswith slash key = false ->
      full_s3_key prefix key =
        (replace_char backslash slash prefix
         ++ (if is_empty prefix || endswith slash prefix then "" else "/")
         ++ replace_char backslash slash key)%string) /\
  (forall key : string,
      full_s3_key "" key = replace_char backslash slash key) /\
  (forall key : string,
      contains_char backslash key = false -> full_s3_key "" key = key) /\
  (forall prefix key : string,
      startswith slash key = true ->
      full_s3_key prefix key = replace_char backslash slash key).
Proof.
  repeat split; try reflexivity.
  - intros prefix key Hk. now rewrite full_s3_key_shape, Hk.
  - intros key. rewrite full_s3_key_shape.
    destruct (startswith slash key); reflexivity.
  - intros key Hk. rewrite full_s3_key_shape.
    destruct (startswith slash key); simpl;
      now apply replace_char_absent.
  - intros prefix key Hk. now rewrite full_s3_key_shape, Hk.
Qed.

Lemma full_s3_key_joins_witness :
  full_s3_key "data" "sub\b.txt" = "data/sub/b.txt" /\
  full_s3_key "" "a.txt" = "a.txt" /\
  full_s3_key "data" "/etc/b" = "/etc/b".
Proof.
  destruct full_s3_key_joins as (_ & _ & _ & Hrel & _ & Hempty & Habs).
  split; [|split].
  - rewrite (Hrel "data" "sub\b.txt"); reflexivity.
  - apply (Hempty "a.txt"). reflexivity.
  - rewrite (Habs "data" "/etc/b"); reflexivity.
Defined.

(* ================================================================== *)
(** ** File enumerator *)

Section Enumerator.

Lemma lookup_app (n : node) (p q : path) :
  lookup n (p ++ q) =
    match lookup n p with
    | Some m => lookup m q
    | None => None
    end.
Proof.
  revert n; induction p as [|c p IH]; intros n; simpl; [reflexivity|].
  destruct n as [sz| |es]; try reflexivity.
  destruct (lookup_entry c es); [apply IH | reflexivity].
Qed.

Lemma lookup_entry_In (name : string) (es : list (string * node)) (n : node) :
  lookup_entry name es = Some n -> In (name, n) es.
Proof.
  induction es as [|[nm c] es IH]; simpl; [discriminate|].
  destruct (String.eqb nm name) eqn:E.
  - apply String.eqb_eq in E; subst nm. intros [= ->]. now left.
  - intros H. right. now apply IH.
Qed.

Lemma lookup_entry_NoDup (name : string) (es : list (string * node)) (n : node) :
  NoDup (map fst es) -> In (name, n) es -> lookup_entry name es = Some n.
Proof.
  induction es as [|[nm c] es IH]; simpl; [intros _ []|].
  intros Hnd [Heq | Hin].
  - injection Heq as -> ->. now rewrite String.eqb_refl.
  - inversion Hnd as [|? ? Hnotin Hnd']; subst.
    destruct (String.eqb nm name) eqn:E.
    + apply String.eqb_eq in E; subst nm.
      exfalso. apply Hnotin. apply (in_map fst) in Hin. exact Hin.
    + now apply IH.
Qed.

Lemma lookup_singleton (es : list (string * node)) (name : string) :
  lookup (Dir es) [name] = lookup_entry name es.
Proof. simpl. destruct (lookup_entry name es); reflexivity. Qed.


(** Every path the two patterns produce starts with the name of a direct
    child. *)
Lemma glob_head (es : list (string * node)) (recursive : bool)
                (p : path) (n : node) :
  In (p, n) (glob (Dir es) recursive) ->
  exists nm rest, p = nm :: rest /\ In nm (map fst es).
Proof.
  assert (Hflat : forall l : list (string * node),
             In (p, n) (map (fun e => ([fst e], snd e)) l) ->
             exists nm rest, p = nm :: rest /\ In nm (map fst l)).
  { intros l H. apply in_map_iff in H as ([nm c] & [= <- <-] & Hin).
    exists nm, []. split; [reflexivity|]. now apply (in_map fst) in Hin. }
  destruct recursive; simpl; [|apply Hflat].
  intros H. apply in_app_or in H as [H | H]; [now apply Hflat|].
  clear Hflat. induction es as [|[nm c] es IH]; simpl in *; [contradiction|].
  apply in_app_or in H as [H | H].
  - apply in_map_iff in H as ([q m] & [= <- <-] & _).
    exists nm, q. split; [reflexivity | now left].
  - destruct (IH H) as (nm' & rest & -> & Hin).
    exists nm', rest. split; [reflexivity | now right].
Qed.

Lemma wf_names_entry (es : list (string * node)) (nm : string) (c : node) :
  wf_names (Dir es) = true -> In (nm, c) es ->
  name_ok nm = true /\ wf_names c = true.
Proof.
  induction es as [|[nm' c'] es IH]; simpl; [intros _ []|].
  intros Hwf [Heq | Hin].
  - injection Heq as -> ->.
    apply andb_prop in Hwf as [Hwf _]. now apply andb_prop in Hwf.
  - apply andb_prop in Hwf as [_ Hwf]. now apply IH.
Qed.

(** A path that exists in a well-formed tree consists of valid names and
    leads to a well-formed subtree. *)
Lemma wf_names_lookup (p : path) :
  forall n m, wf_names n = true -> lookup n p = Some m ->
              Forall (fun c => name_ok c = true) p /\ wf_names m = true.
Proof.
  induction p as [|c p IH]; simpl; intros n m Hwf H.
  - injection H as <-. split; [constructor | assumption].
  - destruct n as [sz| |es]; try discriminate.
    destruct (lookup_entry c es) as [n'|] eqn:E; [|discriminate].
    apply lookup_entry_In in E.
    destruct (wf_names_entry _ _ _ Hwf E) as [Hc Hn'].
    destruct (IH _ _ Hn' H) as [Hp Hm].
    split; [constructor|]; assumption.
Qed.

Lemma name_ok_no_leading_slash (nm : string) :
  name_ok nm = true -> is_empty nm = false /\ startswith slash nm = false.
Proof.
  unfold name_ok. destruct nm as [|a nm]; simpl; [discriminate|].
  intros H. apply negb_true_iff, orb_false_iff in H as [H _].
  split; [reflexivity | exact H].
Qed.

Lemma startswith_concat (c : ascii) (nm : string) (rest : path) :
  is_empty nm = false ->
  startswith c (String.concat "/" (nm :: rest)) = startswith c nm.
Proof.
  destruct nm as [|a nm]; [discriminate|]. intros _.
  destruct rest; reflexivity.
Qed.

(** Relative keys never start with the separator in a tree whose names are
    valid. *)
Lemma relative_key_no_leading_slash (fs : node) (src : path) (recursive : bool)
      (files : list (string * string)) (local_path key : string) :
  wf_names fs = true ->
  get_files_to_upload fs src recursive = Ok files ->
  In (local_path, key) files ->
  startswith slash key = false.
Proof.
  intros Hwf Hget Hin. unfold get_files_to_upload in Hget.
  destruct (lookup fs src) as [n|] eqn:Hl; [|discriminate].
  destruct (wf_names_lookup _ _ _ Hwf Hl) as [Hsrc Hn].
  destruct n as [sz| |es].
  - injection Hget as <-. destruct Hin as [[= <- <-] | []].
    unfold path_name. destruct src as [|c src]; [reflexivity|].
    assert (Hlast : In (last (c :: src) "") (c :: src)).
    { clear. revert c; induction src as [|d src IH]; intros c;
        [now left | right; apply IH]. }
    rewrite Forall_forall in Hsrc.
    now apply name_ok_no_leading_slash, Hsrc.
  - injection Hget as <-. destruct recursive; contradiction.
  - injection Hget as <-.
    apply in_map_iff in Hin as ([p m] & [= <- <-] & Hin).
    apply filter_In in Hin as [Hin _].
    apply glob_head in Hin as (nm & rest & -> & Hnm).
    apply in_map_iff in Hnm as ([nm' c] & <- & Hnm). cbn [fst snd].
    destruct (wf_names_entry _ _ _ Hn Hnm) as [Hok _].
    apply name_ok_no_leading_slash in Hok as [He Hs].
    change (str_of_path (nm' :: rest)) with (String.concat "/" (nm' :: rest)).
    now rewrite startswith_concat.
Qed.

(** For a path that exists the enumerator returns a list. *)
Lemma get_files_to_upload_existing (tree : node) (src : path) (recursive : bool) :
  path_exists tree src = true ->
  exists files, get_files_to_upload tree src recursive = Ok files.
Proof.
  unfold get_files_to_upload, path_exists.
  destruct (lookup tree src) as [[sz| |es]|]; try discriminate;
    intros _; eexists; reflexivity.
Qed.

End Enumerator.

(** C2, as the claim states it, fails: the prefix is used as given, so a
    prefix that starts with the separator gives a remote key that starts
    with it.  Enumerating the sample directory yields the relative key
    ["a.txt"], and with prefix ["/data"] the remote key is ["/data/a.txt"]. *)
Lemma remote_key_leading_separator_counterexample :
  get_files_to_upload sample_tree [] false = Ok [("a.txt", "a.txt")] /\
  full_s3_key "/data" "a.txt" = "/data/a.txt" /\
  startswith slash (full_s3_key "/data" "a.txt") = true.
Proof. repeat split. Qed.

(** C2 (amended): for every prefix that starts with neither a slash nor a
    backslash and every relative key produced by enumerating a tree whose
    file names are non-empty and slash-free, the resolved remote key does not
    start with the path separator, provided that with an empty prefix the
    relative key does not start with a backslash. *)
Theorem remote_key_no_leading_separator
    (tree : node) (src : path) (recursive : bool)
    (files : list (string * string)) (prefix local_path key : string) :
  wf_names tree = true ->
  get_files_to_upload tree src recursive = Ok files ->
  In (local_path, key) files ->
  startswith slash prefix = false ->
  startswith backslash prefix = false ->
  (is_empty prefix = true -> startswith backslash key = false) ->
  startswith slash (full_s3_key prefix key) = false.
Proof.
  intros Hwf Hget Hin Hps Hpb Hkb.
  rewrite full_s3_key_leading_slash.
  rewrite (relative_key_no_leading_slash _ _ _ _ _ _ Hwf Hget Hin).
  destruct (is_empty prefix).
  - now apply Hkb.
  - now rewrite Hps, Hpb.
Qed.

Lemma remote_key_no_leading_separator_witness :
  startswith slash (full_s3_key "data" "sub/b.txt") = false.
Proof.
  apply (remote_key_no_leading_separator sample_tree [] true
           [("a.txt", "a.txt"); ("sub/b.txt", "sub/b.txt")]
           "data" "sub/b.txt" "sub/b.txt").
  - reflexivity.
  - reflexivity.
  - simpl. right. left. reflexivity.
  - reflexivity.
  - reflexivity.
  - simpl. discriminate.
Defined.



(* ================================================================== *)
(** ** Credential validator *)

(** C8: the validator never raises; it returns false when credentials are
    absent ([NoCredentialsError]), when they are malformed or rejected by
    the service (a [ClientError], whichever its code) and on any other
    exception; it returns true exactly when the list-buckets call
    succeeds. *)
Theorem validate_returns_bool (w : World) :
  (exists b, fst (validate_aws_credentials w) = Ok b) /\
  (list_buckets w = Raise NoCredentialsError ->
   fst (validate_aws_credentials w) = Ok false) /\
  (list_buckets w = Raise (ClientError "InvalidAccessKeyId") ->
   fst (validate_aws_credentials w) = Ok false) /\
  (list_buckets w = Raise (ClientError "SignatureDoesNotMatch") ->
   fst (validate_aws_credentials w) = Ok false) /\
  (forall code, list_buckets w = Raise (ClientError code) ->
                fst (validate_aws_credentials w) = Ok false) /\
  (forall e, list_buckets w = Raise e ->
             fst (validate_aws_credentials w) = Ok false) /\
  (fst (validate_aws_credentials w) = Ok true <-> list_buckets w = Ok tt).
Proof.
  assert (Hraise : forall e, list_buckets w = Raise e ->
                             fst (validate_aws_credentials w) = Ok false).
  { intros e He. unfold validate_aws_credentials. rewrite He.
    destruct e as [msg| |code| | | | |p|msg]; try reflexivity.
    mrun. destruct (String.eqb code "InvalidAccessKeyId"); [reflexivity|].
    destruct (String.eqb code "SignatureDoesNotMatch"); reflexivity. }
  assert (Hok : list_buckets w = Ok tt ->
                fst (validate_aws_credentials w) = Ok true).
  { intros H. unfold validate_aws_credentials. now rewrite H. }
  repeat split; eauto.
  - destruct (list_buckets w) as [[]|e] eqn:E; eauto.
  - intros H. destruct (list_buckets w) as [[]|e] eqn:E; [reflexivity|].
    rewrite (Hraise e eq_refl) in H. discriminate.
Qed.

Lemma validate_returns_bool_witness :
  fst (validate_aws_credentials no_credentials_world) = Ok false /\
  fst (validate_aws_credentials sample_world) = Ok true.
Proof.
  split.
  - destruct (validate_returns_bool no_credentials_world) as (_ & H & _).
    apply H. reflexivity.
  - destruct (validate_returns_bool sample_world) as (_ & _ & _ & _ & _ & _ & H).
    apply H. reflexivity.
Defined.

(* ================================================================== *)
(** ** Upload of one file *)

(** [upload_file] never raises: its outcome is [upload_outcome]. *)
Lemma upload_file_total (w : World) (local_path bucket s3_key : string)
                        (dry_run : bool) :
  fst (upload_file w local_path bucket s3_key dry_run)
  = Ok (upload_outcome w local_path bucket s3_key dry_run).
Proof.
  unfold upload_file, upload_outcome. destruct dry_run; [reflexivity|].
  destruct (open_rb w local_path) as [[]|e1]; [|reflexivity].
  destruct (upload_fileobj w local_path bucket s3_key) as [[]|e2]; reflexivity.
Qed.

(** C10: in dry-run mode the upload of one file logs the planned transfer
    and returns success; it neither opens nor sizes the local file and sends
    nothing, whatever the state of the local path. *)
Theorem upload_file_dry_run (w : World) (local_path bucket s3_key : string) :
  upload_file w local_path bucket s3_key true
  = (Ok true, [EvLog INFO (MsgWouldUpload local_path bucket s3_key)])
  /\ existsb is_file_access (snd (upload_file w local_path bucket s3_key true)) = false
  /\ existsb is_network_write (snd (upload_file w local_path bucket s3_key true)) = false.
Proof. repeat split. Qed.

(* ================================================================== *)
(** ** Summary reporter *)

Section SummaryReporter.

Local Open Scope Q_scope.

Lemma py_truediv_positive (a b : Q) : 0 < b -> py_truediv a b = Ok (a / b).
Proof.
  intros Hb. unfold py_truediv.
  destruct (Qeq_bool b 0) eqn:E; [|reflexivity].
  apply Qeq_bool_iff in E. rewrite E in Hb.
  exfalso. exact (Qlt_irrefl 0 Hb).
Qed.

(** The summary as a value: what is returned and the one line logged. *)
Lemma print_summary_report_ok (total_files : nat) (total_size : Z) (start now : Q) :
  exists s, fst (print_summary_report total_files total_size start now) = Ok s
            /\ duration s = now - start
            /\ avg_rate s = (if Qlt_le_dec 0 (now - start)
                             then inject_Z total_size / (now - start) else 0)
            /\ files_per_second s =
                 (if Qlt_le_dec 0 (now - start)
                  then inject_Z (Z.of_nat total_files) / (now - start) else 0).
Proof.
  unfold print_summary_report.
  destruct (Qlt_le_dec 0 (now - start)) as [Hpos | Hle].
  - rewrite !py_truediv_positive by assumption.
    eexists. repeat split.
  - eexists. repeat split.
Qed.

(** C7: the summary computation never fails; when the duration is zero or
    negative both rates are 0, and otherwise the throughput is
    total_bytes / duration (and files per second total_files / duration). *)
Theorem summary_never_fails (total_files : nat) (total_size : Z) (start now : Q) :
  exists s, fst (print_summary_report total_files total_size start now) = Ok s
            /\ duration s = now - start
            /\ (now - start <= 0 -> avg_rate s = 0 /\ files_per_second s = 0)
            /\ (0 < now - start ->
                avg_rate s = inject_Z total_size / (now - start) /\
                files_per_second s =
                  inject_Z (Z.of_nat total_files) / (now - start)).
Proof.
  destruct (print_summary_report_ok total_files total_size start now)
    as (s & Hs & Hd & Ha & Hf).
  exists s. repeat split; try assumption.
  - rewrite Ha. destruct (Qlt_le_dec 0 (now - start)) as [Hpos|]; [|reflexivity].
    exfalso. exact (Qlt_irrefl 0 (Qlt_le_trans _ _ _ Hpos H)).
  - rewrite Hf. destruct (Qlt_le_dec 0 (now - start)) as [Hpos|]; [|reflexivity].
    exfalso. exact (Qlt_irrefl 0 (Qlt_le_trans _ _ _ Hpos H)).
  - rewrite Ha. destruct (Qlt_le_dec 0 (now - start)) as [|Hle]; [reflexivity|].
    exfalso. exact (Qlt_irrefl 0 (Qlt_le_trans _ _ _ H Hle)).
  - rewrite Hf. destruct (Qlt_le_dec 0 (now - start)) as [|Hle]; [reflexivity|].
    exfalso. exact (Qlt_irrefl 0 (Qlt_le_trans _ _ _ H Hle)).
Qed.

Lemma summary_never_fails_witness :
  (exists s, fst (print_summary_report 2 30 100 102) = Ok s
             /\ avg_rate s == 15 /\ files_per_second s == 1)
  /\ (exists s, fst (print_summary_report 2 30 100 100) = Ok s
                /\ avg_rate s = 0 /\ files_per_second s = 0).
Proof.
  split.
  - destruct (summary_never_fails 2 30 100 102) as (s & Hs & _ & _ & Hpos).
    exists s. split; [exact Hs|].
    destruct (Hpos eq_refl) as [-> ->]. split; reflexivity.
  - destruct (summary_never_fails 2 30 100 100) as (s & Hs & _ & Hzero & _).
    exists s. split; [exact Hs|].
    apply Hzero. discriminate.
Defined.

End SummaryReporter.

(* ================================================================== *)
(** ** Upload dispatcher: submission *)

Section Submission.

Variable w : World.
Variable bucket : string.
Variable dry_run : bool.

Lemma submit_batch_spec (batch : list (string * string)) :
  forall next,
    submit_batch w bucket dry_run next batch
    = (Ok (futures_from w bucket dry_run next batch),
       flat_map (upload_events w bucket dry_run) batch).
Proof.
  induction batch as [|[local_path s3_key] rest IH]; intros next;
    [reflexivity|].
  cbn [submit_batch futures_from flat_map]. unfold submit.
  erewrite bind_ok by reflexivity. cbn [fst snd].
  rewrite IH. erewrite bind_ok by reflexivity. cbn [fst snd ret].
  rewrite upload_file_total, app_nil_r. reflexivity.
Qed.

Lemma futures_from_length (tasks : list (string * string)) :
  forall next, length (futures_from w bucket dry_run next tasks) = length tasks.
Proof.
  induction tasks as [|t rest IH]; intros next; simpl; [reflexivity|].
  now rewrite IH.
Qed.

Lemma futures_from_app (a b : list (string * string)) :
  forall next,
    futures_from w bucket dry_run next (a ++ b)
    = futures_from w bucket dry_run next a
      ++ futures_from w bucket dry_run (next + length a) b.
Proof.
  induction a as [|t a IH]; intros next; simpl.
  - now rewrite Nat.add_0_r.
  - rewrite IH. now rewrite Nat.add_succ_r.
Qed.

Lemma combine_app_same_length {A B : Type} (a a' : list A) (b b' : list B) :
  length a = length b ->
  combine (a ++ a') (b ++ b') = combine a b ++ combine a' b'.
Proof.
  revert b; induction a as [|x a IH]; intros [|y b]; simpl; try discriminate;
    [reflexivity|].
  intros [= H]. now rewrite IH.
Qed.

Lemma dict_from_app (a b : list (string * string)) (next : nat) :
  dict_from w bucket dry_run next (a ++ b)
  = dict_from w bucket dry_run next a
    ++ dict_from w bucket dry_run (next + length a) b.
Proof.
  unfold dict_from. rewrite futures_from_app, map_app.
  apply combine_app_same_length. now rewrite futures_from_length, length_map.
Qed.

Lemma map_futures_spec (d : FutureDict) (next : nat)
                       (batch : list (string * string)) :
  map_futures d (futures_from w bucket dry_run next batch) batch
  = d ++ dict_from w bucket dry_run next batch.
Proof.
  unfold map_futures, dict_from. f_equal.
  generalize (futures_from w bucket dry_run next batch) as futures.
  induction batch as [|t batch IH]; intros [|f futures]; simpl;
    try reflexivity.
  now rewrite IH.
Qed.

Lemma slice_batch {A : Type} (l : list A) (i n : nat) :
  slice l i (i + n) = firstn n (skipn i l).
Proof. unfold slice. now replace (i + n - i) with n by lia. Qed.

Lemma without_progress_app (s t : list event) :
  without_progress (s ++ t) = without_progress s ++ without_progress t.
Proof. apply filter_app. Qed.

Lemma progress_total_app (bar : string) (s t : list event) :
  progress_total bar (s ++ t) = progress_total bar s + progress_total bar t.
Proof.
  induction s as [|ev s IH]; simpl; [reflexivity|].
  destruct ev; try exact IH. rewrite IH. lia.
Qed.

Lemma upload_events_no_progress (t : string * string) :
  without_progress (upload_events w bucket dry_run t) = upload_events w bucket dry_run t
  /\ forall bar, progress_total bar (upload_events w bucket dry_run t) = 0.
Proof.
  unfold upload_events, upload_file. destruct dry_run; [split; reflexivity|].
  destruct (open_rb w (fst t)) as [[]|e1]; [|split; reflexivity].
  destruct (upload_fileobj w (fst t) bucket (snd t)) as [[]|e2];
    split; reflexivity.
Qed.

Lemma flat_map_upload_events_no_progress (tasks : list (string * string)) :
  without_progress (flat_map (upload_events w bucket dry_run) tasks)
  = flat_map (upload_events w bucket dry_run) tasks
  /\ forall bar,
      progress_total bar (flat_map (upload_events w bucket dry_run) tasks) = 0.
Proof.
  induction tasks as [|t tasks [IH1 IH2]]; simpl; [split; reflexivity|].
  destruct (upload_events_no_progress t) as [H1 H2].
  split.
  - now rewrite without_progress_app, H1, IH1.
  - intros bar. now rewrite progress_total_app, H2, IH2.
Qed.

(** The submission loop from index [start] on, for any positive batch size
    and enough fuel: the dict grows by the remaining tasks in order, every
    remaining task is run, and the bar advances by their number. *)
Lemma submit_loop_spec (size : nat) (tasks : list (string * string)) :
  0 < size ->
  forall fuel start next d,
    length tasks - start <= fuel ->
    exists trace,
      submit_loop w bucket dry_run size tasks
                  (range_from fuel start (length tasks) size) next d
      = (Ok (d ++ dict_from w bucket dry_run next (skipn start tasks)), trace)
      /\ without_progress trace
         = flat_map (upload_events w bucket dry_run) (skipn start tasks)
      /\ progress_total "Submitting files" trace = length (skipn start tasks)
      /\ progress_total "Uploading files" trace = 0.
Proof.
  intros Hsize. induction fuel as [|fuel IH]; intros start next d Hfuel.
  - rewrite skipn_all2 by lia. simpl. eexists. rewrite app_nil_r.
    repeat split.
  - simpl. destruct (Nat.ltb start (length tasks)) eqn:Hlt.
    + apply Nat.ltb_lt in Hlt. simpl.
      rewrite slice_batch, submit_batch_spec.
      set (batch := firstn size (skipn start tasks)).
      destruct (IH (start + size) (next + length batch)
                   (d ++ dict_from w bucket dry_run next batch))
        as (trace & Hrun & Hwp & Hsub & Hup); [lia|].
      erewrite bind_ok by reflexivity. cbn [fst snd].
      rewrite bind_emit, map_futures_spec, Hrun. cbn [fst snd].
      assert (Hsplit : skipn start tasks = batch ++ skipn (start + size) tasks).
      { unfold batch. rewrite Nat.add_comm, <- skipn_skipn.
        symmetry. apply firstn_skipn. }
      destruct (flat_map_upload_events_no_progress batch) as [Hb1 Hb2].
      rewrite <- app_assoc, <- dict_from_app, <- Hsplit.
      eexists. split; [reflexivity|]. split; [|split].
      * rewrite without_progress_app, Hb1. cbn [without_progress filter is_progress negb].
        fold (without_progress trace). rewrite Hwp.
        rewrite Hsplit. now rewrite flat_map_app.
      * rewrite progress_total_app, Hb2. simpl. rewrite Hsub.
        rewrite Hsplit. now rewrite length_app.
      * rewrite progress_total_app, Hb2. simpl. exact Hup.
    + apply Nat.ltb_ge in Hlt. rewrite skipn_all2 by lia. simpl.
      eexists. rewrite app_nil_r. repeat split.
Qed.

(** Submission in batches of 1000. *)
Lemma submit_files_spec (tasks : list (string * string)) :
  exists trace,
    submit_files w bucket dry_run tasks
    = (Ok (dict_from w bucket dry_run 0 tasks), trace)
    /\ without_progress trace = flat_map (upload_events w bucket dry_run) tasks
    /\ progress_total "Submitting files" trace = length tasks
    /\ progress_total "Uploading files" trace = 0.
Proof.
  unfold submit_files, py_range.
  destruct (submit_loop_spec batch_size tasks) with
    (fuel := length tasks) (start := 0) (next := 0) (d := @nil (Future * string))
    as (trace & H); [unfold batch_size; lia | lia |].
  exists trace. exact H.
Qed.

(** Submission in one go. *)
Lemma submit_unbatched_spec (tasks : list (string * string)) :
  submit_unbatched w bucket dry_run tasks
  = (Ok (dict_from w bucket dry_run 0 tasks),
     flat_map (upload_events w bucket dry_run) tasks).
Proof.
  unfold submit_unbatched. rewrite submit_batch_spec.
  erewrite bind_ok by reflexivity. cbn [fst snd ret].
  rewrite app_nil_r, map_futures_spec. reflexivity.
Qed.

End Submission.

(* ================================================================== *)
(** ** Upload dispatcher: completion *)

Section Completion.

Variable w : World.

Lemma dict_from_fid_ge (bucket : string) (dry_run : bool)
      (tasks : list (string * string)) :
  forall next f p,
    In (f, p) (dict_from w bucket dry_run next tasks) -> next <= fid f.
Proof.
  induction tasks as [|t tasks IH]; intros next f p; [intros []|].
  unfold dict_from; simpl. intros [[= <- <-] | Hin]; [simpl; lia|].
  apply IH in Hin. lia.
Qed.

(** Futures are told apart: the dict gives back the file a future was
    entered with. *)
Lemma dict_get_dict_from (bucket : string) (dry_run : bool)
      (tasks : list (string * string)) :
  forall next f p,
    In (f, p) (dict_from w bucket dry_run next tasks) ->
    dict_get (dict_from w bucket dry_run next tasks) f = Ok p.
Proof.
  induction tasks as [|t tasks IH]; intros next f p; [intros []|].
  unfold dict_from; simpl. intros [[= <- <-] | Hin].
  - simpl. now rewrite Nat.eqb_refl.
  - pose proof (dict_from_fid_ge _ _ _ _ _ _ Hin) as Hge.
    replace (Nat.eqb next (fid f)) with false
      by (symmetry; apply Nat.eqb_neq; lia).
    now apply IH.
Qed.

(** Every task has its future in the dict, holding the outcome of its own
    upload. *)
Lemma dict_from_task (bucket : string) (dry_run : bool)
      (tasks : list (string * string)) (t : string * string) :
  In t tasks ->
  forall next, exists f,
    In (f, fst t) (dict_from w bucket dry_run next tasks)
    /\ fresult f = Ok (upload_outcome w (fst t) bucket (snd t) dry_run).
Proof.
  induction tasks as [|t' tasks IH]; [intros []|].
  intros [-> | Hin] next.
  - eexists. split; [left; reflexivity | reflexivity].
  - destruct (IH Hin (S next)) as (f & Hf & Hres).
    exists f. split; [right; exact Hf | exact Hres].
Qed.

Lemma dict_keys_In (d : FutureDict) (f : Future) :
  In f (dict_keys d) -> exists p, In (f, p) d.
Proof.
  unfold dict_keys. intros H. apply in_map_iff in H as ([g p] & <- & Hin).
  now exists p.
Qed.

Lemma file_of_get (d : FutureDict) (f : Future) (p : string) :
  dict_get d f = Ok p -> file_of d f = p.
Proof. unfold file_of. now intros ->. Qed.

(** One round of the completion loop never raises; it ticks the bar once and
    writes one line about the file. *)
Lemma handle_future_spec (d : FutureDict) (st : RunState) (f : Future) (p : string) :
  dict_get d f = Ok p ->
  exists total trace,
    handle_future w d st f = (Ok (fst st && future_good w p f, total), trace)
    /\ progress_total "Uploading files" trace = 1
    /\ existsb (reports_file p) trace = true
    /\ existsb is_network_write trace = false.
Proof.
  intros Hget. unfold handle_future, future_good.
  rewrite Hget, bind_lift_ok. destruct st as [success total_size].
  destruct (fresult f) as [[|]|e]; destruct (getsize w p) as [z|e'];
    mrun; rewrite ?andb_true_r, ?andb_false_r;
    do 2 eexists; (split; [reflexivity|]); (split; [reflexivity|]);
    (split; [|reflexivity]); simpl; rewrite String.eqb_refl;
    now rewrite ?orb_true_r.
Qed.

Lemma existsb_false_app {A : Type} (g : A -> bool) (s t : list A) :
  existsb g s = false -> existsb g t = false -> existsb g (s ++ t) = false.
Proof. intros Hs Ht. now rewrite existsb_app, Hs, Ht. Qed.

(** The completion loop over futures that are all in the dict. *)
Lemma collect_spec (d : FutureDict) (order : list Future) :
  (forall f, In f order -> exists p, dict_get d f = Ok p) ->
  forall st, exists total trace,
    collect w d order st
    = (Ok (fst st && forallb (fun f => future_good w (file_of d f) f) order,
           total), trace)
    /\ progress_total "Uploading files" trace = length order
    /\ (forall f, In f order -> existsb (reports_file (file_of d f)) trace = true)
    /\ existsb is_network_write trace = false.
Proof.
  induction order as [|f order IH]; intros Hin st.
  - exists (snd st), []. simpl. rewrite andb_true_r.
    destruct st. repeat split. intros f [].
  - destruct (Hin f (or_introl eq_refl)) as (p & Hget).
    destruct (handle_future_spec d st f p Hget)
      as (total1 & trace1 & Hrun1 & Hticks1 & Hrep1 & Hnet1).
    destruct (IH (fun g Hg => Hin g (or_intror Hg))
                 (fst st && future_good w p f, total1))
      as (total2 & trace2 & Hrun2 & Hticks2 & Hrep2 & Hnet2).
    exists total2, (trace1 ++ trace2).
    cbn [collect]. erewrite bind_ok by (rewrite Hrun1; reflexivity).
    rewrite Hrun1, Hrun2. cbn [fst snd forallb].
    rewrite (file_of_get _ _ _ Hget), andb_assoc.
    split; [reflexivity|]. split; [|split].
    + rewrite progress_total_app, Hticks1, Hticks2. reflexivity.
    + intros g [<- | Hg]; rewrite existsb_app.
      * now rewrite (file_of_get _ _ _ Hget), Hrep1.
      * rewrite (Hrep2 g Hg). apply orb_true_r.
    + now apply existsb_false_app.
Qed.

End Completion.

(* ================================================================== *)
(** ** Upload dispatcher: a live run *)

Section LiveRun.

Variable w : World.
Variable args : Args.
Variable as_completed : list Future -> list Future.

Lemma print_summary_report_run (total_files : nat) (total_size : Z) (start now : Q) :
  exists s msg,
    print_summary_report total_files total_size start now
    = (Ok s, [EvLog INFO msg])
    /\ is_summary_line (EvLog INFO msg) = true.
Proof.
  unfold print_summary_report.
  destruct (Qlt_le_dec 0 (now - start)) as [Hpos | Hle].
  - rewrite !py_truediv_positive by assumption. do 2 eexists.
    split; reflexivity.
  - do 2 eexists. split; reflexivity.
Qed.

(** A live run is the fixed opening lines, the submission, and the
    completion of what the submission left in the dict. *)
Lemma upload_live_with_run
      (submit_all : World -> string -> bool -> list (string * string) -> M FutureDict)
      (files : list (string * string)) (d : FutureDict) (strace : list event) :
  files <> [] ->
  submit_all w (bucket_str args) (dry_run args) (resolve_tasks args files)
  = (Ok d, strace) ->
  upload_live_with submit_all w args as_completed files
  = (fst (complete_run w as_completed (length files) d),
     [EvLog INFO (MsgFoundFiles (length files));
      EvLog INFO (MsgUsingWorkers (Nat.min 32 (length files)));
      EvLog INFO MsgPreparing;
      EvLog INFO (MsgStartingExecutor (Nat.min 32 (length files)))]
     ++ strace ++ snd (complete_run w as_completed (length files) d)).
Proof.
  intros Hne Hsub. unfold upload_live_with. fold (resolve_tasks args files).
  rewrite !bind_log. cbn [fst snd].
  assert (Hexec : new_executor (Nat.min 32 (length files)) = Ok tt).
  { destruct files as [|f files']; [contradiction | reflexivity]. }
  rewrite Hexec, bind_lift_ok.
  erewrite bind_ok by (rewrite Hsub; reflexivity).
  rewrite Hsub. reflexivity.
Qed.

Lemma dict_from_length (bucket : string) (dry : bool) (next : nat)
                       (tasks : list (string * string)) :
  length (dict_from w bucket dry next tasks) = length tasks.
Proof.
  unfold dict_from.
  rewrite length_combine, futures_from_length, length_map. apply Nat.min_id.
Qed.

(** Completion of the dict a submission leaves, for any completion order. *)
Lemma complete_run_spec (bucket : string) (dry : bool)
                        (tasks : list (string * string)) (n : nat) :
  (forall l, Permutation (as_completed l) l) ->
  let d := dict_from w bucket dry 0 tasks in
  exists ctrace,
    complete_run w as_completed n d
    = (Ok (forallb (fun f => future_good w (file_of d f) f)
                   (as_completed (dict_keys d))), ctrace)
    /\ progress_total "Uploading files" ctrace = length tasks
    /\ (forall f, In f (dict_keys d) ->
                  existsb (reports_file (file_of d f)) ctrace = true)
    /\ existsb is_summary_line ctrace = true.
Proof.
  intros Hperm d.
  assert (Hkeys : forall f, In f (as_completed (dict_keys d)) ->
                            exists p, dict_get d f = Ok p).
  { intros f Hf. apply (Permutation_in _ (Hperm _)) in Hf.
    apply dict_keys_In in Hf as (p & Hp).
    exists p. now apply dict_get_dict_from. }
  destruct (collect_spec w d _ Hkeys (true, 0%Z))
    as (total & trace & Hrun & Hticks & Hrep & _).
  destruct (print_summary_report_run n total (start_time w) (end_time w))
    as (s & msg & Hsum & Hline).
  unfold complete_run. rewrite bind_log.
  erewrite bind_ok by (rewrite Hrun; reflexivity).
  rewrite Hrun. cbn [fst snd].
  erewrite bind_ok by (rewrite Hsum; reflexivity).
  rewrite Hsum. cbn [fst snd ret].
  eexists. split; [reflexivity|]. split; [|split].
  - cbn [progress_total]. rewrite progress_total_app, Hticks.
    rewrite (Permutation_length (Hperm _)). unfold dict_keys.
    rewrite length_map. unfold d. rewrite dict_from_length. simpl. lia.
  - intros f Hf. cbn [existsb]. rewrite existsb_app, Hrep; [reflexivity|].
    apply (Permutation_in _ (Permutation_sym (Hperm _))). exact Hf.
  - cbn [existsb]. rewrite existsb_app. simpl in Hline. simpl.
    rewrite Hline. now rewrite orb_true_r.
Qed.

(** Two submission loops that leave the same dict and make the same calls
    give the same run. *)
Lemma upload_live_with_same
      (submit1 submit2 : World -> string -> bool -> list (string * string) -> M FutureDict)
      (files : list (string * string)) (d : FutureDict) (t1 t2 : list event) :
  files <> [] ->
  submit1 w (bucket_str args) (dry_run args) (resolve_tasks args files) = (Ok d, t1) ->
  submit2 w (bucket_str args) (dry_run args) (resolve_tasks args files) = (Ok d, t2) ->
  without_progress t1 = without_progress t2 ->
  fst (upload_live_with submit1 w args as_completed files)
  = fst (upload_live_with submit2 w args as_completed files)
  /\ without_progress (snd (upload_live_with submit1 w args as_completed files))
     = without_progress (snd (upload_live_with submit2 w args as_completed files)).
Proof.
  intros Hne H1 H2 Ht.
  rewrite (upload_live_with_run submit1 files d t1 Hne H1).
  rewrite (upload_live_with_run submit2 files d t2 Hne H2).
  cbn [fst snd]. split; [reflexivity|].
  rewrite !without_progress_app, Ht. reflexivity.
Qed.

End LiveRun.

(** C9: submitting in batches of 1000 gives the same results as submitting
    everything at once: the same futures for the same files with the same
    outcomes, the same calls in the same order, and for every list of files
    and every completion order the same return value, per-file reports and
    summary (only the ticks of the submission bar differ). *)
Theorem batched_submission_equals_unbatched
    (w : World) (args : Args) (as_completed : list Future -> list Future)
    (files : list (string * string)) :
  let tasks := resolve_tasks args files in
  fst (submit_files w (bucket_str args) (dry_run args) tasks)
  = fst (submit_unbatched w (bucket_str args) (dry_run args) tasks)
  /\ without_progress (snd (submit_files w (bucket_str args) (dry_run args) tasks))
     = snd (submit_unbatched w (bucket_str args) (dry_run args) tasks)
  /\ fst (upload_live w args as_completed files)
     = fst (upload_live_unbatched w args as_completed files)
  /\ without_progress (snd (upload_live w args as_completed files))
     = without_progress (snd (upload_live_unbatched w args as_completed files)).
Proof.
  intros tasks.
  destruct (submit_files_spec w (bucket_str args) (dry_run args) tasks)
    as (trace & Hbatched & Hcalls & _).
  pose proof (submit_unbatched_spec w (bucket_str args) (dry_run args) tasks)
    as Hplain.
  rewrite Hbatched, Hplain. cbn [fst snd].
  split; [reflexivity|]. split; [exact Hcalls|].
  destruct files as [|f files'].
  - split; reflexivity.
  - eapply (upload_live_with_same w args as_completed submit_files
              submit_unbatched (f :: files'));
      [discriminate | exact Hbatched | exact Hplain |].
    rewrite Hcalls.
    now destruct (flat_map_upload_events_no_progress w (bucket_str args)
                    (dry_run args) tasks) as [-> _].
Qed.

(* ================================================================== *)
(** ** Failure of one task *)

Lemma upload_files_live (w : World) (args : Args)
      (as_completed : list Future -> list Future)
      (src : path) (files : list (string * string)) (b : bool) :
  source args = Some src ->
  get_files_to_upload (fs w) src (recursive args) = Ok files ->
  files <> [] ->
  dry_run args = false ->
  fst (upload_live w args as_completed files) = Ok b ->
  upload_files w args as_completed = upload_live w args as_completed files.
Proof.
  intros Hsrc Hget Hne Hdry Hok. unfold upload_files.
  rewrite Hsrc, Hget, bind_lift_ok.
  destruct files as [|f files']; [contradiction|].
  rewrite Hdry. now apply try_except_ok with b.
Qed.

Lemma upload_events_open (w : World) (bucket : string) (t : string * string) :
  In (EvOpen (fst t)) (upload_events w bucket false t).
Proof.
  unfold upload_events, upload_file.
  destruct (open_rb w (fst t)) as [[]|e1]; [|mrun; auto].
  destruct (upload_fileobj w (fst t) bucket (snd t)) as [[]|e2]; mrun; auto.
Qed.

(** C3: when the upload of one dispatched task fails (it raised, or
    returned failure), the run returns false without being cut short: the
    completion bar receives one tick per file, the summary is printed, and
    for every file (the failed one and all others) the upload was carried
    out and a line about it was written, in whatever order the futures
    complete. *)
Theorem failed_task_fails_run_not_siblings
    (w : World) (args : Args) (as_completed : list Future -> list Future)
    (src : path) (files : list (string * string)) (failed : string * string) :
  (forall l, Permutation (as_completed l) l) ->
  dry_run args = false ->
  source args = Some src ->
  get_files_to_upload (fs w) src (recursive args) = Ok files ->
  In failed files ->
  fst (upload_file w (fst failed) (bucket_str args)
                   (full_s3_key (prefix args) (snd failed)) false) <> Ok true ->
  fst (upload_files w args as_completed) = Ok false
  /\ progress_total "Uploading files" (snd (upload_files w args as_completed))
     = length files
  /\ existsb is_summary_line (snd (upload_files w args as_completed)) = true
  /\ forall t, In t files ->
       incl (upload_events w (bucket_str args) false
                           (fst t, full_s3_key (prefix args) (snd t)))
            (snd (upload_files w args as_completed))
       /\ In (EvOpen (fst t)) (snd (upload_files w args as_completed))
       /\ existsb (reports_file (fst t)) (snd (upload_files w args as_completed))
          = true.
Proof.
  intros Hperm Hdry Hsrc Hget Hfailed Hfail.
  assert (Hne : files <> []) by (intros ->; contradiction).
  set (tasks := resolve_tasks args files).
  set (d := dict_from w (bucket_str args) (dry_run args) 0 tasks).
  destruct (submit_files_spec w (bucket_str args) (dry_run args) tasks)
    as (strace & Hsub & Hcalls & _ & Hsticks).
  destruct (complete_run_spec w as_completed (bucket_str args) (dry_run args)
              tasks (length files) Hperm)
    as (ctrace & Hcomp & Hcticks & Hreports & Hsummary).
  fold d in Hsub, Hcomp, Hreports.
  pose proof (upload_live_with_run w args as_completed submit_files
                files d strace Hne Hsub) as Hrun.
  fold (upload_live w args as_completed files) in Hrun.
  rewrite Hcomp in Hrun. cbn [fst snd] in Hrun.
  (* The future of the failed task spoils the conjunction. *)
  assert (Htask : forall t, In t files ->
            exists f, In f (dict_keys d)
                      /\ file_of d f = fst t
                      /\ fresult f = Ok (upload_outcome w (fst t) (bucket_str args)
                                           (full_s3_key (prefix args) (snd t))
                                           (dry_run args))).
  { intros t Ht.
    assert (Hin : In (fst t, full_s3_key (prefix args) (snd t)) tasks).
    { unfold tasks, resolve_tasks. apply in_map_iff. now exists t. }
    destruct (dict_from_task w (bucket_str args) (dry_run args) tasks _ Hin 0)
      as (f & Hf & Hres).
    exists f. cbn [fst snd] in *. split; [|split; [|exact Hres]].
    - unfold dict_keys. apply in_map_iff. now exists (f, fst t).
    - apply file_of_get. now apply dict_get_dict_from. }
  assert (Hfalse : forallb (fun f => future_good w (file_of d f) f)
                     (as_completed (dict_keys d)) = false).
  { destruct (Htask failed Hfailed) as (f & Hkey & _ & Hres).
    rewrite Hdry in Hres.
    rewrite upload_file_total in Hfail.
    destruct (upload_outcome w (fst failed) (bucket_str args)
                (full_s3_key (prefix args) (snd failed)) false);
      [now contradiction Hfail|].
    destruct (forallb _ _) eqn:E; [|reflexivity].
    rewrite forallb_forall in E.
    specialize (E f (Permutation_in _ (Permutation_sym (Hperm _)) Hkey)).
    unfold future_good in E. rewrite Hres in E. discriminate. }
  rewrite Hfalse in Hrun.
  rewrite (upload_files_live w args as_completed src files false
             Hsrc Hget Hne Hdry) by (now rewrite Hrun).
  rewrite Hrun. cbn [fst snd].
  split; [reflexivity|]. split; [|split].
  - cbn [app progress_total]. rewrite progress_total_app, Hsticks, Hcticks.
    unfold tasks, resolve_tasks. now rewrite length_map.
  - cbn [app existsb is_summary_line]. rewrite existsb_app, Hsummary.
    apply orb_true_r.
  - intros t Ht.
    assert (Hevents : incl (upload_events w (bucket_str args) false
                              (fst t, full_s3_key (prefix args) (snd t)))
                           strace).
    { intros ev Hev.
      assert (Hwp : In ev (without_progress strace)).
      { rewrite Hcalls, Hdry. apply in_flat_map.
        exists (fst t, full_s3_key (prefix args) (snd t)). split; [|exact Hev].
        unfold tasks, resolve_tasks. apply in_map_iff. now exists t. }
      unfold without_progress in Hwp. now apply filter_In in Hwp. }
    assert (Hincl : incl strace
              ([EvLog INFO (MsgFoundFiles (length files));
                EvLog INFO (MsgUsingWorkers (Nat.min 32 (length files)));
                EvLog INFO MsgPreparing;
                EvLog INFO (MsgStartingExecutor (Nat.min 32 (length files)))]
               ++ strace ++ ctrace)).
    { intros ev Hev. apply in_or_app. right. apply in_or_app. now left. }
    split; [|split].
    + intros ev Hev. apply Hincl, Hevents, Hev.
    + apply Hincl, Hevents.
      apply (upload_events_open w (bucket_str args)
               (fst t, full_s3_key (prefix args) (snd t))).
    + destruct (Htask t Ht) as (f & Hkey & Hfile & _).
      rewrite !existsb_app, <- Hfile, (Hreports f Hkey).
      now rewrite !orb_true_r.
Qed.

Lemma failed_task_fails_run_not_siblings_witness :
  fst (upload_files deleted_file_world sample_args in_reverse_order) = Ok false
  /\ progress_total "Uploading files"
       (snd (upload_files deleted_file_world sample_args in_reverse_order)) = 2
  /\ In (EvOpen "sub/b.txt")
        (snd (upload_files deleted_file_world sample_args in_reverse_order)).
Proof.
  destruct (failed_task_fails_run_not_siblings
              deleted_file_world sample_args in_reverse_order []
              [("a.txt", "a.txt"); ("sub/b.txt", "sub/b.txt")]
              ("a.txt", "a.txt"))
    as (Hfalse & Hticks & _ & Hall).
  - intros l. apply Permutation_sym, Permutation_rev.
  - reflexivity.
  - reflexivity.
  - reflexivity.
  - simpl. left. reflexivity.
  - vm_compute. discriminate.
  - split; [exact Hfalse|]. split; [exact Hticks|].
    apply (Hall ("sub/b.txt", "sub/b.txt")). simpl. right. left. reflexivity.
Defined.

(* ================================================================== *)
(** ** Dry run *)

Section DryRun.

Variable w : World.
Variable args : Args.
Variable as_completed : list Future -> list Future.

Lemma for_each_log (files : list (string * string))
                   (line : string * string -> message) :
  for_each files (fun f => log INFO (line f))
  = (Ok tt, map (fun f => EvLog INFO (line f)) files).
Proof.
  induction files as [|f files IH]; [reflexivity|].
  cbn [for_each map]. now rewrite bind_log, IH.
Qed.


(** A dry run of [upload_files] over an existing source. *)
Lemma upload_files_dry_run (src : path) (files : list (string * string)) :
  dry_run args = true ->
  source args = Some src ->
  get_files_to_upload (fs w) src (recursive args) = Ok files ->
  upload_files w args as_completed
  = (Ok true,
     match files with
     | [] => [EvLog WARNING MsgNoFilesFound]
     | _ => EvLog INFO (MsgFoundFiles (length files))
            :: map (fun f => EvLog INFO (MsgPlanned (fst f) (bucket_str args)
                                           (full_s3_key (prefix args) (snd f))))
                   files
     end).
Proof.
  intros Hdry Hsrc Hget. unfold upload_files.
  rewrite Hsrc, Hget, bind_lift_ok.
  destruct files as [|f files']; [reflexivity|].
  rewrite Hdry, bind_log, for_each_log. cbn [fst snd].
  erewrite bind_ok by reflexivity. cbn [fst snd ret].
  now rewrite app_nil_r.
Qed.


End DryRun.




(* ================================================================== *)
(** ** The worked example: [a.txt] (10 bytes) and [sub/b.txt] (20 bytes),
    recursive, prefix ["data"], bucket ["mybucket"] *)

Example sample_dry_run_plan :
  upload_files sample_world sample_dry_run_args in_submission_order
  = (Ok true,
     [EvLog INFO (MsgFoundFiles 2);
      EvLog INFO (MsgPlanned "a.txt" "mybucket" "data/a.txt");
      EvLog INFO (MsgPlanned "sub/b.txt" "mybucket" "data/sub/b.txt")]).
Proof. reflexivity. Qed.

Example sample_live_run_summary :
  fst (upload_files sample_world sample_args in_reverse_order) = Ok true
  /\ In (EvLog INFO (MsgSummary 2 (inject_Z 30, "B") (102 - 100)%Q
                       ((inject_Z 30 / (102 - 100))%Q, "B")
                       (inject_Z 2 / (102 - 100))%Q))
        (snd (upload_files sample_world sample_args in_reverse_order)).
Proof. split; [reflexivity|]. vm_compute. intuition. Qed.

Example sample_batches : py_range 2500 batch_size = [0; 1000; 2000].
Proof. reflexivity. Qed.

(* ================================================================== *)
(** * Further properties *)

(** ** Recursive enumeration *)

Section RecursiveEnumeration.

(** The recursive pattern, one level unfolded. *)
Lemma glob_star_star_Dir (es : list (string * node)) :
  glob_star_star (Dir es)
  = map (fun e => ([fst e], snd e)) es
    ++ flat_map (fun e => map (fun pe : path * node => (fst e :: fst pe, snd pe))
                              (glob_star_star (snd e))) es.
Proof.
  cbn [glob_star_star]. f_equal.
  induction es as [|[nm c] es IH]; [reflexivity|].
  cbn [flat_map fst snd]. now rewrite <- IH.
Qed.

Lemma glob_star_star_nonempty (m n : node) (p : path) :
  In (p, n) (glob_star_star m) -> p <> [].
Proof.
  destruct m as [sz| |es]; try contradiction.
  rewrite glob_star_star_Dir. intros H.
  apply in_app_or in H as [H | H].
  - apply in_map_iff in H as (e & [= <- _] & _). discriminate.
  - apply in_flat_map in H as (e & _ & H).
    apply in_map_iff in H as (pe & [= <- _] & _). discriminate.
Qed.


Lemma unique_names_entry (es : list (string * node)) (nm : string) (c : node) :
  unique_names (Dir es) -> In (nm, c) es -> unique_names c.
Proof.
  intros [_ Hall]. induction es as [|[nm' c'] es IH]; [intros []|].
  destruct Hall as [Hc Hall]. intros [[= <- <-] | Hin]; [exact Hc|].
  now apply IH.
Qed.

Lemma unique_names_lookup (p : path) :
  forall m n, unique_names m -> lookup m p = Some n -> unique_names n.
Proof.
  induction p as [|c q IH]; intros m n Hu Hl.
  - now injection Hl as <-.
  - destruct m as [sz| |es]; try discriminate. cbn [lookup] in Hl.
    destruct (lookup_entry c es) as [n'|] eqn:E; [|discriminate].
    apply lookup_entry_In in E.
    exact (IH _ _ (unique_names_entry _ _ _ Hu E) Hl).
Qed.

(** With unique names, what the recursive pattern produces is what the path
    leads to. *)
Lemma glob_star_star_sound (p : path) :
  forall m n, unique_names m -> In (p, n) (glob_star_star m) -> lookup m p = Some n.
Proof.
  induction p as [|c q IH]; intros m n Hu Hin.
  - now apply glob_star_star_nonempty in Hin.
  - destruct m as [sz| |es]; try contradiction.
    rewrite glob_star_star_Dir in Hin.
    apply in_app_or in Hin as [Hin | Hin].
    + apply in_map_iff in Hin as ([nm n'] & [= <- <- <-] & Hin).
      rewrite lookup_singleton. apply lookup_entry_NoDup; [apply Hu | exact Hin].
    + apply in_flat_map in Hin as ([nm n'] & He & Hin).
      apply in_map_iff in Hin as ([q' n''] & [= <- <- <-] & Hin).
      cbn [lookup].
      rewrite (lookup_entry_NoDup nm es n' (proj1 Hu) He).
      exact (IH _ _ (unique_names_entry _ _ _ Hu He) Hin).
Qed.

Lemma glob_sound (m n : node) (recursive : bool) (p : path) :
  unique_names m -> In (p, n) (glob m recursive) ->
  p <> [] /\ lookup m p = Some n.
Proof.
  intros Hu Hin. destruct recursive.
  - split; [now apply glob_star_star_nonempty in Hin
           | now apply glob_star_star_sound].
  - assert (Hin' : In (p, n) (glob_star_star m)).
    { destruct m as [sz| |es]; try contradiction.
      rewrite glob_star_star_Dir. apply in_or_app. now left. }
    split; [now apply glob_star_star_nonempty in Hin'
           | now apply glob_star_star_sound].
Qed.

End RecursiveEnumeration.



(** X2: in a tree whose directories hold each name once, every pair the
    enumerator returns (recursive or not) names a regular file that exists
    at the local path: the source itself when it is a file (key = its base
    name), otherwise a file below the source (key = its relative path);
    directories and special files are never listed. *)
Theorem enumerate_lists_only_existing_files
    (tree : node) (src : path) (recursive : bool)
    (files : list (string * string)) (local_path key : string) :
  unique_names tree ->
  get_files_to_upload tree src recursive = Ok files ->
  In (local_path, key) files ->
  exists p size,
    lookup tree (src ++ p) = Some (File size)
    /\ local_path = str_of_path (src ++ p)
    /\ ((p = [] /\ key = path_name src) \/ (p <> [] /\ key = str_of_path p)).
Proof.
  intros Hu Hget Hin. unfold get_files_to_upload in Hget.
  destruct (lookup tree src) as [m|] eqn:Hl; [|discriminate].
  assert (Hlisted : forall m',
             m = m' ->
             In (local_path, key)
                (map (fun pe : path * node =>
                        (str_of_path (src ++ fst pe), str_of_path (fst pe)))
                     (filter (fun pe => is_file (snd pe)) (glob m' recursive))) ->
             exists p size,
               lookup tree (src ++ p) = Some (File size)
               /\ local_path = str_of_path (src ++ p)
               /\ ((p = [] /\ key = path_name src) \/ (p <> [] /\ key = str_of_path p))).
  { intros m' <- H.
    apply in_map_iff in H as ([p n] & [= <- <-] & H).
    apply filter_In in H as [H Hfile]. cbn [fst snd] in *.
    destruct n as [size| |]; try discriminate.
    destruct (glob_sound m (File size) recursive p
                (unique_names_lookup _ _ _ Hu Hl) H) as [Hne Hp].
    exists p, size. rewrite lookup_app, Hl.
    split; [exact Hp|]. split; [reflexivity|]. right. now split. }
  destruct m as [size| |es].
  - injection Hget as <-. destruct Hin as [[= <- <-] | []].
    exists [], size. rewrite app_nil_r. split; [exact Hl|].
    split; [reflexivity|]. left. now split.
  - injection Hget as <-. exact (Hlisted _ eq_refl Hin).
  - injection Hget as <-. exact (Hlisted _ eq_refl Hin).
Qed.

Lemma enumerate_lists_only_existing_files_witness :
  exists p size,
    lookup sample_tree ([] ++ p) = Some (File size)
    /\ "sub/b.txt" = str_of_path ([] ++ p)
    /\ ((p = [] /\ "sub/b.txt" = path_name []) \/
        (p <> [] /\ "sub/b.txt" = str_of_path p)).
Proof.
  apply (enumerate_lists_only_existing_files sample_tree [] true
           [("a.txt", "a.txt"); ("sub/b.txt", "sub/b.txt")]).
  - simpl. repeat split; repeat constructor; simpl; intuition discriminate.
  - reflexivity.
  - simpl. right. left. reflexivity.
Defined.



(* ================================================================== *)
(** ** Defaults from the environment *)

Section EnvironmentDefaults.

Local Open Scope string_scope.

Lemma split_char_nonempty (c : ascii) (s : string) : split_char c s <> [].
Proof.
  induction s as [|a s IH]; simpl; [discriminate|].
  destruct (Ascii.eqb a c); [discriminate|].
  destruct (split_char c s); discriminate.
Qed.

(** Joining the pieces with the separator gives the string back. *)
Lemma concat_split_char (c : ascii) (s : string) :
  String.concat (String c "") (split_char c s) = s.
Proof.
  induction s as [|a s IH]; [reflexivity|].
  cbn [split_char]. destruct (Ascii.eqb a c) eqn:E.
  - apply Ascii.eqb_eq in E; subst a.
    destruct (split_char c s) as [|piece pieces] eqn:Hs;
      [now apply split_char_nonempty in Hs|].
    cbn [String.concat]. simpl. now rewrite <- IH.
  - destruct (split_char c s) as [|piece pieces] eqn:Hs;
      [now apply split_char_nonempty in Hs|].
    rewrite <- IH. destruct pieces; reflexivity.
Qed.

(** No piece holds the separator. *)
Lemma split_char_pieces (c : ascii) (s : string) :
  Forall (fun piece => contains_char c piece = false) (split_char c s).
Proof.
  induction s as [|a s IH]; simpl; [repeat constructor|].
  destruct (Ascii.eqb a c) eqn:E; [constructor; [reflexivity | exact IH]|].
  destruct (split_char c s) as [|piece pieces]; [repeat constructor; simpl|].
  - now rewrite E.
  - inversion IH as [|? ? Hp Hps]; subst. constructor; [|exact Hps].
    simpl. now rewrite E, Hp.
Qed.

(** Splitting a string that starts with a separator-free piece. *)
Lemma split_char_app (c : ascii) (b rest : string) :
  contains_char c b = false ->
  split_char c (b ++ String c rest) = b :: split_char c rest.
Proof.
  induction b as [|a b IH]; simpl.
  - intros _. now rewrite Ascii.eqb_refl.
  - intros H. apply orb_false_iff in H as [Ha Hb].
    now rewrite Ha, (IH Hb).
Qed.

Lemma split_char_absent (c : ascii) (b : string) :
  contains_char c b = false -> split_char c b = [b].
Proof.
  induction b as [|a b IH]; simpl; [reflexivity|].
  intros H. apply orb_false_iff in H as [Ha Hb].
  now rewrite Ha, (IH Hb).
Qed.

Lemma prefix_drop (s1 s2 : string) :
  String.prefix s1 s2 = true -> s2 = s1 ++ drop (String.length s1) s2.
Proof.
  revert s2; induction s1 as [|a s1 IH]; intros s2; [reflexivity|].
  destruct s2 as [|b s2]; simpl; [discriminate|].
  destruct (ascii_dec a b) as [<-|]; [|discriminate].
  intros H. now rewrite <- (IH s2 H).
Qed.

Lemma prefix_app (s1 s2 : string) : String.prefix s1 (s1 ++ s2) = true.
Proof.
  induction s1 as [|a s1 IH]; [destruct s2; reflexivity|]. simpl.
  destruct (ascii_dec a a); [exact IH | contradiction].
Qed.

Lemma drop_app (s1 s2 : string) : drop (String.length s1) (s1 ++ s2) = s2.
Proof. induction s1 as [|a s1 IH]; [reflexivity | exact IH]. Qed.

End EnvironmentDefaults.

(** X4: when [AWS_UPLOAD_URL] starts with ["s3://"], the default bucket and
    the default prefix take the URL apart without losing anything:
    [get_default_bucket] does not raise, the bucket holds no ['/'], and the
    URL is ["s3://" + bucket] (then the prefix is empty) or
    ["s3://" + bucket + "/" + prefix]. *)
Theorem default_bucket_and_prefix_recompose (env : Env) (url : string) :
  env "AWS_UPLOAD_URL" = Some url ->
  String.prefix "s3://" url = true ->
  exists b,
    get_default_bucket env = Ok (Some b)
    /\ contains_char slash b = false
    /\ ((url = ("s3://" ++ b)%string /\ get_default_prefix env = "")
        \/ url = ("s3://" ++ b ++ "/" ++ get_default_prefix env)%string).
Proof.
  intros Henv Hs3.
  unfold get_default_bucket, get_default_prefix, getenv. cbv zeta.
  rewrite Henv, Hs3.
  pose proof (prefix_drop _ _ Hs3) as Hurl. cbn [String.length] in Hurl.
  pose proof (concat_split_char slash (drop 5 url)) as Hjoin.
  pose proof (split_char_pieces slash (drop 5 url)) as Hpieces.
  set (rest := drop 5 url) in *. clearbody rest.
  destruct (split_char slash rest) as [|b pieces] eqn:Hsplit;
    [now apply split_char_nonempty in Hsplit|].
  exists b. split; [reflexivity|].
  split; [exact (Forall_inv Hpieces)|].
  destruct pieces as [|piece pieces].
  - left. cbn in Hjoin. split; [|reflexivity].
    rewrite Hurl at 1. now rewrite <- Hjoin.
  - right. cbn [length Nat.ltb Nat.leb tl].
    rewrite Hurl at 1. f_equal. rewrite <- Hjoin. reflexivity.
Qed.

Lemma default_bucket_and_prefix_recompose_witness :
  exists b,
    get_default_bucket sample_env = Ok (Some b)
    /\ contains_char slash b = false
    /\ (("s3://mybucket/ifcb/raw" = ("s3://" ++ b)%string
         /\ get_default_prefix sample_env = "")
        \/ "s3://mybucket/ifcb/raw"
           = ("s3://" ++ b ++ "/" ++ get_default_prefix sample_env)%string).
Proof.
  apply (default_bucket_and_prefix_recompose sample_env "s3://mybucket/ifcb/raw").
  - reflexivity.
  - reflexivity.
Defined.

(** X5: the other way round: for a bucket name without ['/'] and any path,
    the URL ["s3://" + bucket + "/" + path] gives back that bucket and that
    path as prefix, and the URL ["s3://" + bucket] gives the bucket and the
    empty prefix. *)
Theorem default_bucket_and_prefix_of_url (env : Env) (b p : string) :
  contains_char slash b = false ->
  (env "AWS_UPLOAD_URL" = Some ("s3://" ++ b ++ "/" ++ p)%string ->
   get_default_bucket env = Ok (Some b) /\ get_default_prefix env = p)
  /\ (env "AWS_UPLOAD_URL" = Some ("s3://" ++ b)%string ->
      get_default_bucket env = Ok (Some b) /\ get_default_prefix env = "").
Proof.
  intros Hb. split; intros Henv;
    unfold get_default_bucket, get_default_prefix, getenv; cbv zeta;
    rewrite Henv.
  - rewrite (prefix_app "s3://").
    change 5 with (String.length "s3://"). rewrite drop_app.
    change (b ++ "/" ++ p)%string with (b ++ String slash p)%string.
    rewrite (split_char_app slash b p Hb).
    pose proof (split_char_nonempty slash p) as Hne.
    pose proof (concat_split_char slash p) as Hjoin.
    destruct (split_char slash p) as [|piece pieces]; [contradiction|].
    split; [reflexivity|]. exact Hjoin.
  - rewrite (prefix_app "s3://").
    change 5 with (String.length "s3://"). rewrite drop_app.
    rewrite (split_char_absent slash b Hb). split; reflexivity.
Qed.

Lemma default_bucket_and_prefix_of_url_witness :
  get_default_bucket sample_env = Ok (Some "mybucket")
  /\ get_default_prefix sample_env = "ifcb/raw".
Proof.
  destruct (default_bucket_and_prefix_of_url sample_env "mybucket" "ifcb/raw")
    as [Hpath _].
  - reflexivity.
  - apply Hpath. reflexivity.
Defined.

(* ================================================================== *)
(** ** More on the key resolver *)

Section KeyResolverMore.

Local Open Scope string_scope.

Lemma replace_char_removes (old new : ascii) (s : string) :
  old <> new -> contains_char old (replace_char old new s) = false.
Proof.
  intros Hneq. induction s as [|a s IH]; [reflexivity|]. simpl.
  rewrite IH, orb_false_r.
  destruct (Ascii.eqb a old) eqn:E; [|exact E].
  apply Ascii.eqb_neq. congruence.
Qed.

Lemma endswith_app_char (c : ascii) (s : string) :
  endswith c (s ++ String c "") = true.
Proof.
  induction s as [|a s IH]; simpl; [apply Ascii.eqb_refl|].
  destruct s; exact IH.
Qed.

Lemma append_assoc (s t u : string) : (s ++ t) ++ u = s ++ (t ++ u).
Proof. induction s as [|a s IH]; simpl; [reflexivity | now rewrite IH]. Qed.

End KeyResolverMore.

(** X6: a resolved key never holds a backslash, whatever the prefix and the
    relative key. *)
Theorem full_s3_key_has_no_backslash (prefix key : string) :
  contains_char backslash (full_s3_key prefix key) = false.
Proof.
  unfold full_s3_key. apply replace_char_removes. discriminate.
Qed.

(** X7: for a non-empty prefix that does not already end with the
    separator, adding one trailing ['/'] makes no difference: the prefix and
    the prefix followed by ['/'] resolve every relative key to the same
    remote key. *)
Theorem full_s3_key_trailing_separator (prefix key : string) :
  is_empty prefix = false ->
  endswith slash prefix = false ->
  full_s3_key (prefix ++ "/") key = full_s3_key prefix key.
Proof.
  intros Hne Hend. unfold full_s3_key, posix_join.
  destruct (startswith slash key); [reflexivity|].
  rewrite Hne, Hend. cbn [orb].
  change (prefix ++ "/")%string with (prefix ++ String slash "")%string.
  rewrite endswith_app_char, orb_true_r.
  now rewrite append_assoc.
Qed.

Lemma full_s3_key_trailing_separator_witness :
  full_s3_key "ifcb/raw/" "sub/b.txt" = full_s3_key "ifcb/raw" "sub/b.txt".
Proof.
  apply (full_s3_key_trailing_separator "ifcb/raw" "sub/b.txt"); reflexivity.
Defined.

(* ================================================================== *)
(** ** Size formatting *)

Section SizeFormatting.

Local Open Scope Q_scope.

Lemma kib_ge_1 (k : nat) : 1 <= kib k.
Proof. induction k as [|k IH]; simpl; lra. Qed.

(** The unit reached and the value shown, for any list of units. *)
Lemma format_size_units_spec (units : list string) :
  forall (size : Q) (k : nat),
    (k <= length units)%nat ->
    (k = O \/ kib k <= size) ->
    ((k < length units)%nat -> size < 1024 * kib k) ->
    snd (format_size_units size units) = nth k units "PB"%string
    /\ fst (format_size_units size units) == size / kib k.
Proof.
  induction units as [|unit rest IH]; intros size k Hk Hlow Hhigh.
  - assert (k = O) by (simpl in Hk; lia). subst k. simpl.
    split; [reflexivity | field].
  - cbn [format_size_units]. destruct (Qlt_le_dec size 1024) as [Hlt | Hge].
    + assert (k = O).
      { destruct k as [|k']; [reflexivity|]. exfalso.
        destruct Hlow as [Hlow | Hlow]; [discriminate|].
        pose proof (kib_ge_1 k'). simpl in Hlow. lra. }
      subst k. simpl. split; [reflexivity | field].
    + destruct k as [|k'].
      * exfalso. simpl in Hhigh. specialize (Hhigh ltac:(lia)). lra.
      * pose proof (kib_ge_1 k') as Hk1.
        assert (Hlow' : kib (S k') <= size)
          by (destruct Hlow as [Hlow | Hlow]; [discriminate | exact Hlow]).
        cbn [kib] in Hlow', Hhigh.
        destruct (IH (size / 1024) k') as [Hunit Hvalue].
        -- simpl in Hk. lia.
        -- right. apply Qle_shift_div_l; lra.
        -- intros Hlt. apply Qlt_shift_div_r; [lra|].
           specialize (Hhigh ltac:(simpl; lia)). lra.
        -- split; [exact Hunit|].
           rewrite Hvalue. cbn [kib]. field. lra.
Qed.

(** Bounds on the value shown, for any list of units. *)
Lemma format_size_units_bounds (units : list string) :
  forall size : Q,
    0 <= size ->
    0 <= fst (format_size_units size units)
    /\ (fst (format_size_units size units) < 1024
        \/ snd (format_size_units size units) = "PB"%string)
    /\ (1 <= size -> 1 <= fst (format_size_units size units)).
Proof.
  induction units as [|unit rest IH]; intros size Hsize.
  - simpl. split; [exact Hsize|]. split; [now right | trivial].
  - cbn [format_size_units]. destruct (Qlt_le_dec size 1024) as [Hlt | Hge].
    + simpl. split; [exact Hsize|]. split; [now left | trivial].
    + assert (H1 : 1 <= size / 1024) by (apply Qle_shift_div_l; lra).
      destruct (IH (size / 1024)) as (H0 & Hlt & Hone); [lra|].
      split; [exact H0|]. split; [exact Hlt|]. intros _. now apply Hone.
Qed.

End SizeFormatting.

(** X8: [format_size] picks the unit by powers of 1024 and scales the value
    accordingly: a size in the range from 1024^k (any size below 1024 for
    k = 0) to below 1024^(k+1) is shown in the k-th of B, KB, MB, GB, TB as
    size / 1024^k, and everything from 1024^5 on is shown in PB. *)
Theorem format_size_unit_and_value (size : Q) (k : nat) :
  (k <= 5)%nat ->
  (k = O \/ (kib k <= size)%Q) ->
  ((k < 5)%nat -> (size < kib (S k))%Q) ->
  snd (format_size size) = nth k size_units "PB"
  /\ (fst (format_size size) == size / kib k)%Q.
Proof.
  intros Hk Hlow Hhigh. unfold format_size.
  apply (format_size_units_spec ["B"; "KB"; "MB"; "GB"; "TB"] size k);
    [exact Hk | exact Hlow | exact Hhigh].
Qed.

Lemma format_size_unit_and_value_witness :
  snd (format_size 1536%Q) = "KB" /\ (fst (format_size 1536%Q) == 3 # 2)%Q.
Proof.
  destruct (format_size_unit_and_value 1536%Q 1) as [Hunit Hvalue].
  - lia.
  - right. vm_compute. discriminate.
  - intros _. reflexivity.
  - split; [exact Hunit|]. rewrite Hvalue. reflexivity.
Defined.

Section Rendering.

Local Open Scope Q_scope.

Lemma round_half_even_ge (x : Q) (m : Z) :
  inject_Z m <= x -> (m <= round_half_even x)%Z.
Proof.
  intros Hm. apply Qfloor_resp_le in Hm. rewrite Qfloor_Z in Hm.
  unfold round_half_even.
  destruct (x - inject_Z (Qfloor x) ?= 1 # 2); [destruct (Z.even _)| |]; lia.
Qed.

Lemma round_half_even_le (x : Q) (m : Z) :
  x <= inject_Z m -> (round_half_even x <= m)%Z.
Proof.
  intros Hm. pose proof (Qfloor_resp_le _ _ Hm) as Hf. rewrite Qfloor_Z in Hf.
  pose proof (Qfloor_le x) as Hlow.
  assert (Hcase : (Qfloor x < m)%Z \/ Qfloor x = m) by lia.
  unfold round_half_even.
  destruct (x - inject_Z (Qfloor x) ?= 1 # 2) eqn:E.
  - destruct (Z.even (Qfloor x)); [lia|].
    destruct Hcase as [Hlt | Heq]; [lia|]. exfalso.
    apply Qeq_alt in E. rewrite Heq in E, Hlow. lra.
  - lia.
  - destruct Hcase as [Hlt | Heq]; [lia|]. exfalso.
    apply Qgt_alt in E. rewrite Heq in E, Hlow. lra.
Qed.

Lemma round_half_even_error (x : Q) :
  - (1 # 2) <= inject_Z (round_half_even x) - x <= 1 # 2.
Proof.
  pose proof (Qfloor_le x) as Hlow. pose proof (Qlt_floor x) as Hhigh.
  rewrite inject_Z_plus in Hhigh. change (inject_Z 1) with 1 in Hhigh.
  unfold round_half_even.
  destruct (x - inject_Z (Qfloor x) ?= 1 # 2) eqn:E.
  - apply Qeq_alt in E.
    destruct (Z.even (Qfloor x)); rewrite ?inject_Z_plus;
      change (inject_Z 1) with 1; lra.
  - apply Qlt_alt in E. lra.
  - apply Qgt_alt in E. rewrite inject_Z_plus.
    change (inject_Z 1) with 1. lra.
Qed.

(** The rendering keeps whole-number bounds and moves the value by at most
    half a hundredth. *)
Lemma render_2f_bounds (x : Q) :
  (0 <= x -> 0 <= render_2f x)
  /\ (x <= 1024 -> render_2f x <= 1024)
  /\ (1 <= x -> 1 <= render_2f x)
  /\ - (1 # 200) <= render_2f x - x <= 1 # 200.
Proof.
  unfold render_2f.
  pose proof (round_half_even_error (x * 100)) as Herr.
  split; [|split; [|split; [|split]]].
  - intros Hx. assert (H : (0 <= round_half_even (x * 100))%Z)
      by (apply round_half_even_ge; change (inject_Z 0) with 0; lra).
    rewrite Zle_Qle in H. apply Qle_shift_div_l; [reflexivity|].
    change (inject_Z 0) with 0 in H. lra.
  - intros Hx. assert (H : (round_half_even (x * 100) <= 102400)%Z)
      by (apply round_half_even_le; change (inject_Z 102400) with 102400; lra).
    rewrite Zle_Qle in H. apply Qle_shift_div_r; [reflexivity|].
    change (inject_Z 102400) with 102400 in H. lra.
  - intros Hx. assert (H : (100 <= round_half_even (x * 100))%Z)
      by (apply round_half_even_ge; change (inject_Z 100) with 100; lra).
    rewrite Zle_Qle in H. apply Qle_shift_div_l; [reflexivity|].
    change (inject_Z 100) with 100 in H. lra.
  - apply Qle_minus_iff.
    setoid_replace (inject_Z (round_half_even (x * 100)) / 100 - x + - - (1 # 200))
      with ((inject_Z (round_half_even (x * 100)) - x * 100 + (1 # 2)) / 100)
      by field.
    apply Qle_shift_div_l; [reflexivity|]. lra.
  - apply Qle_minus_iff.
    setoid_replace ((1 # 200) + - (inject_Z (round_half_even (x * 100)) / 100 - x))
      with (((1 # 2) - (inject_Z (round_half_even (x * 100)) - x * 100)) / 100)
      by field.
    apply Qle_shift_div_l; [reflexivity|]. lra.
Qed.

End Rendering.

(** X9: for a size that is not negative, the number [format_size] displays
    (its value rounded to two decimals) is not negative; it is at most
    1024.00 except in the last unit PB, and 1024.00 is reached (1048575
    bytes are shown as 1024.00 KB); it is at least 1.00 whenever the size
    is at least one byte; and it differs from the value before rounding by
    at most 0.005. *)
Theorem format_size_shown_bounds (size : Q) :
  (0 <= size)%Q ->
  (0 <= fst (format_size_shown size))%Q
  /\ ((fst (format_size_shown size) <= 1024)%Q
      \/ snd (format_size_shown size) = "PB")
  /\ ((1 <= size)%Q -> (1 <= fst (format_size_shown size))%Q)
  /\ (- (1 # 200) <= fst (format_size_shown size) - fst (format_size size)
      <= 1 # 200)%Q.
Proof.
  intros Hsize. unfold format_size_shown, format_size. cbn [fst snd].
  destruct (format_size_units_bounds ["B"; "KB"; "MB"; "GB"; "TB"] size Hsize)
    as (H0 & Hlt & H1).
  destruct (render_2f_bounds
              (fst (format_size_units size ["B"; "KB"; "MB"; "GB"; "TB"])))
    as (R0 & R1024 & R1 & Rerr).
  split; [now apply R0|]. split; [|split; [|exact Rerr]].
  - destruct Hlt as [Hlt | Hpb]; [left | now right].
    apply R1024. now apply Qlt_le_weak.
  - intros Hone. apply R1. now apply H1.
Qed.

Lemma format_size_shown_bounds_witness :
  (fst (format_size_shown 1048575%Q) == 1024)%Q
  /\ snd (format_size_shown 1048575%Q) = "KB"
  /\ (fst (format_size_shown 1048575%Q) <= 1024)%Q.
Proof.
  destruct (format_size_shown_bounds 1048575%Q) as (_ & [Hle | Hpb] & _).
  - vm_compute. discriminate.
  - repeat split. exact Hle.
  - discriminate Hpb.
Defined.

(* ================================================================== *)
(** ** Batches of the submission loop *)

Lemma range_batches {A : Type} (l : list A) (size : nat) :
  0 < size ->
  forall fuel start,
    length l - start <= fuel ->
    concat (map (fun i => slice l i (i + size))
                (range_from fuel start (length l) size)) = skipn start l
    /\ Forall (fun b => 1 <= length b <= size)
              (map (fun i => slice l i (i + size))
                   (range_from fuel start (length l) size)).
Proof.
  intros Hsize. induction fuel as [|fuel IH]; intros start Hfuel.
  - rewrite skipn_all2 by lia. split; [reflexivity | constructor].
  - cbn [range_from]. destruct (Nat.ltb start (length l)) eqn:Hlt.
    + apply Nat.ltb_lt in Hlt.
      destruct (IH (start + size)) as [Hcat Hall]; [lia|].
      cbn [map concat]. rewrite slice_batch, Hcat. split.
      * rewrite Nat.add_comm, <- skipn_skipn. apply firstn_skipn.
      * constructor; [|exact Hall].
        rewrite length_firstn, length_skipn. lia.
    + apply Nat.ltb_ge in Hlt. rewrite skipn_all2 by lia.
      split; [reflexivity | constructor].
Qed.

(** X10: the submission loop cuts the task list into batches that, put
    together in order, are exactly the task list; no batch is empty and
    none holds more than 1000 tasks. *)
Theorem batches_partition_tasks (upload_tasks : list (string * string)) :
  concat (batches batch_size upload_tasks) = upload_tasks
  /\ Forall (fun b => 1 <= length b <= batch_size)
            (batches batch_size upload_tasks).
Proof.
  unfold batches, py_range.
  destruct (range_batches upload_tasks batch_size) with
    (fuel := length upload_tasks) (start := 0) as [Hcat Hall];
    [unfold batch_size; lia | lia |].
  split; [exact Hcat | exact Hall].
Qed.

(* ================================================================== *)
(** ** The top level *)

Section TopLevel.

Variable w : World.
Variable args : Args.
Variable as_completed : list Future -> list Future.

(** The credential check makes the one call and writes one line. *)
Lemma validate_aws_credentials_trace :
  exists b lvl msg,
    validate_aws_credentials w = (Ok b, [EvListBuckets; EvLog lvl msg])
    /\ (list_buckets w = Ok tt -> b = true)
    /\ (forall e, list_buckets w = Raise e -> b = false).
Proof.
  unfold validate_aws_credentials.
  destruct (list_buckets w) as [[]|e].
  - exists true. do 2 eexists. split; [reflexivity|]. split; [reflexivity|].
    discriminate.
  - exists false.
    destruct e as [msg| |code| | | | |p|msg];
      try (do 2 eexists; split; [reflexivity|]; split;
           [discriminate | reflexivity]).
    destruct (String.eqb code "InvalidAccessKeyId") eqn:E1;
      [|destruct (String.eqb code "SignatureDoesNotMatch") eqn:E2];
      mrun; rewrite E1, ?E2; do 2 eexists;
      (split; [reflexivity|]); (split; [discriminate | reflexivity]).
Qed.

(** The argument check returns true without a line, or false with one
    error line; it asks nothing but whether the source exists. *)
Lemma validate_args_run :
  (exists src name,
      source args = Some src /\ path_exists (fs w) src = true
      /\ bucket args = Some name /\ validate_args w args = (Ok true, []))
  \/ ((source args = None
       \/ (exists src, source args = Some src /\ path_exists (fs w) src = false)
       \/ bucket args = None)
      /\ exists msg, validate_args w args = (Ok false, [EvLog ERROR msg])).
Proof.
  unfold validate_args.
  destruct (source args) as [src|]; [|right; split; [now left | now eexists]].
  destruct (path_exists (fs w) src) eqn:He; cbn [negb].
  - destruct (bucket args) as [name|].
    + left. now exists src, name.
    + right. split; [now right; right | now eexists].
  - right. split; [right; left; now exists src | now eexists].
Qed.

(** Whatever happens inside, [upload_files] returns a boolean. *)
Lemma upload_files_total :
  exists b, fst (upload_files w args as_completed) = Ok b.
Proof.
  unfold upload_files.
  match goal with
  | |- exists b, fst (try_except ?m ?h) = Ok b =>
      destruct m as [[b|e] t] eqn:Hm
  end.
  - exists b. reflexivity.
  - exists false. reflexivity.
Qed.

(** The last step of [main] turns that boolean into the exit status. *)
Lemma main_upload_step (b : bool) :
  fst (upload_files w args as_completed) = Ok b ->
  try_except
    (log INFO MsgStartingProcess ;;;
     success <- upload_files w args as_completed ;;
     ret (if success then 0%Z else 1%Z))
    (fun e => log ERROR (MsgError e) ;;; ret 1%Z)
  = (Ok (if b then 0%Z else 1%Z),
     EvLog INFO MsgStartingProcess :: snd (upload_files w args as_completed)).
Proof.
  intros Hb. rewrite bind_log.
  erewrite (bind_ok (upload_files w args as_completed)) by exact Hb.
  cbn [fst snd ret]. now rewrite app_nil_r.
Qed.

End TopLevel.

(** X11: once the command line has been parsed (lines 397-417), [main]
    does not raise and returns 0 or 1, for every world, every set of parsed
    arguments and every behaviour of the completion order, even one that
    hands back futures that were never submitted. *)
Theorem main_exit_status_is_0_or_1
    (w : World) (args : Args) (as_completed : list Future -> list Future) :
  fst (main w args as_completed) = Ok 0%Z
  \/ fst (main w args as_completed) = Ok 1%Z.
Proof.
  destruct (validate_aws_credentials_trace w) as (b & lvl & msg & Hval & _).
  unfold main. destruct (validate args).
  - rewrite bind_log. erewrite bind_ok by (rewrite Hval; reflexivity).
    cbn [fst snd ret]. destruct b; [now left | now right].
  - destruct (validate_args_run w args)
      as [(src & name & _ & _ & _ & Hargs) | (_ & emsg & Hargs)];
      rewrite Hargs.
    + erewrite bind_ok by reflexivity. cbn [fst snd negb].
      erewrite bind_ok by (rewrite Hval; reflexivity).
      rewrite Hval. cbn [fst snd]. destruct b; cbn [negb]; [|now right].
      destruct (upload_files_total w args as_completed) as (ok & Hok).
      rewrite (main_upload_step w args as_completed ok Hok). cbn [fst].
      destruct ok; [now left | now right].
    + erewrite bind_ok by reflexivity. cbn [fst snd negb]. now right.
Qed.

(** X12: with [--validate] only the credential check runs: exactly one
    list-buckets call is made, no file is opened or sized, nothing is sent,
    and the exit status is 0 exactly when that call succeeds, whatever the
    other arguments are. *)
Theorem main_validate_only
    (w : World) (args : Args) (as_completed : list Future -> list Future) :
  validate args = true ->
  fst (main w args as_completed)
  = Ok (match list_buckets w with Ok _ => 0%Z | Raise _ => 1%Z end)
  /\ length (filter is_list_buckets (snd (main w args as_completed))) = 1
  /\ existsb is_file_access (snd (main w args as_completed)) = false
  /\ existsb is_network_write (snd (main w args as_completed)) = false.
Proof.
  intros Hv.
  destruct (validate_aws_credentials_trace w)
    as (b & lvl & msg & Hval & Hok & Hbad).
  unfold main. rewrite Hv, bind_log.
  erewrite bind_ok by (rewrite Hval; reflexivity).
  rewrite Hval. cbn [fst snd ret app].
  split; [|repeat split].
  destruct (list_buckets w) as [[]|e].
  - now rewrite (Hok eq_refl).
  - now rewrite (Hbad e eq_refl).
Qed.

Lemma main_validate_only_witness :
  fst (main no_credentials_world validate_only_args in_submission_order) = Ok 1%Z
  /\ fst (main sample_world validate_only_args in_submission_order) = Ok 0%Z.
Proof.
  split.
  - exact (proj1 (main_validate_only no_credentials_world validate_only_args
                    in_submission_order eq_refl)).
  - exact (proj1 (main_validate_only sample_world validate_only_args
                    in_submission_order eq_refl)).
Defined.

(** X13: without [--validate], a missing source argument, a source path
    that does not exist or a missing bucket ends the run with status 1
    after one error line: the storage service is not contacted and no file
    is touched. *)
Theorem main_rejects_bad_arguments
    (w : World) (args : Args) (as_completed : list Future -> list Future) :
  validate args = false ->
  source args = None
  \/ (exists src, source args = Some src /\ path_exists (fs w) src = false)
  \/ bucket args = None ->
  exists msg,
    main w args as_completed = (Ok 1%Z, [EvLog ERROR msg]).
Proof.
  intros Hv Hbad. unfold main. rewrite Hv.
  destruct (validate_args_run w args)
    as [(src & name & Hsrc & Hex & Hb & _) | (_ & emsg & Hargs)].
  - exfalso. destruct Hbad as [Hn | [(src' & Hs & He) | Hn]]; congruence.
  - exists emsg. rewrite Hargs. erewrite bind_ok by reflexivity.
    reflexivity.
Qed.

Lemma main_rejects_bad_arguments_witness :
  exists msg,
    main sample_world missing_source_args in_submission_order
    = (Ok 1%Z, [EvLog ERROR msg]).
Proof.
  apply (main_rejects_bad_arguments sample_world missing_source_args
           in_submission_order).
  - reflexivity.
  - right. left. exists ["nowhere"]. split; reflexivity.
Defined.

(** X14: when the credential check fails, the run ends with status 1 and
    nothing is uploaded: no file is opened or sized and no object is sent,
    whatever the arguments are. *)
Theorem main_stops_on_bad_credentials
    (w : World) (args : Args) (as_completed : list Future -> list Future)
    (e : exn) :
  list_buckets w = Raise e ->
  fst (main w args as_completed) = Ok 1%Z
  /\ existsb is_file_access (snd (main w args as_completed)) = false
  /\ existsb is_network_write (snd (main w args as_completed)) = false.
Proof.
  intros Hbad.
  destruct (validate_aws_credentials_trace w)
    as (b & lvl & msg & Hval & _ & Hfalse).
  rewrite (Hfalse e Hbad) in Hval.
  unfold main. destruct (validate args).
  - rewrite bind_log. erewrite bind_ok by (rewrite Hval; reflexivity).
    rewrite Hval. repeat split.
  - destruct (validate_args_run w args)
      as [(src & name & _ & _ & _ & Hargs) | (_ & emsg & Hargs)];
      rewrite Hargs.
    + erewrite bind_ok by reflexivity. cbn [fst snd negb].
      erewrite bind_ok by (rewrite Hval; reflexivity).
      rewrite Hval. repeat split.
    + erewrite bind_ok by reflexivity. repeat split.
Qed.

Lemma main_stops_on_bad_credentials_witness :
  fst (main no_credentials_world sample_args in_submission_order) = Ok 1%Z
  /\ existsb is_file_access
       (snd (main no_credentials_world sample_args in_submission_order)) = false
  /\ existsb is_network_write
       (snd (main no_credentials_world sample_args in_submission_order)) = false.
Proof.
  apply (main_stops_on_bad_credentials no_credentials_world sample_args
           in_submission_order NoCredentialsError).
  reflexivity.
Defined.

(* ================================================================== *)
(** ** Runs that upload nothing *)

(** Without files there is one warning and the result is true. *)
Lemma upload_files_no_files
    (w : World) (args : Args) (as_completed : list Future -> list Future)
    (src : path) :
  source args = Some src ->
  get_files_to_upload (fs w) src (recursive args) = Ok [] ->
  upload_files w args as_completed = (Ok true, [EvLog WARNING MsgNoFilesFound]).
Proof.
  intros Hsrc Hget. unfold upload_files.
  now rewrite Hsrc, Hget, bind_lift_ok.
Qed.

(** X15: when the enumeration finds no file (an empty directory, or only
    subdirectories without [--recursive]), [upload_files] returns true
    after one warning, in live and in dry-run mode alike, and the whole run
    exits with status 0 once arguments and credentials have passed: no
    worker pool is started, no file is opened or sized and nothing is
    sent. *)
Theorem run_with_nothing_to_upload
    (w : World) (args : Args) (as_completed : list Future -> list Future)
    (src : path) :
  source args = Some src ->
  get_files_to_upload (fs w) src (recursive args) = Ok [] ->
  upload_files w args as_completed = (Ok true, [EvLog WARNING MsgNoFilesFound])
  /\ (validate args = false ->
      bucket args <> None ->
      list_buckets w = Ok tt ->
      fst (main w args as_completed) = Ok 0%Z
      /\ existsb is_file_access (snd (main w args as_completed)) = false
      /\ existsb is_network_write (snd (main w args as_completed)) = false).
Proof.
  intros Hsrc Hget.
  pose proof (upload_files_no_files w args as_completed src Hsrc Hget) as Hrun.
  split; [exact Hrun|].
  intros Hv Hbucket Hcreds.
  destruct (validate_aws_credentials_trace w)
    as (b & lvl & msg & Hval & Hok & _).
  rewrite (Hok Hcreds) in Hval.
  unfold main. rewrite Hv.
  destruct (validate_args_run w args)
    as [(src' & name & _ & _ & _ & Hargs) | (Hbad & _)].
  - rewrite Hargs. erewrite bind_ok by reflexivity. cbn [fst snd negb].
    erewrite bind_ok by (rewrite Hval; reflexivity).
    rewrite Hval. cbn [fst snd negb].
    rewrite (main_upload_step w args as_completed true)
      by (now rewrite Hrun).
    rewrite Hrun. repeat split.
  - exfalso. destruct Hbad as [Hn | [(src' & Hs & He) | Hn]]; try congruence.
    rewrite Hsrc in Hs. injection Hs as <-.
    unfold path_exists in He. unfold get_files_to_upload in Hget.
    destruct (lookup (fs w) src); discriminate.
Qed.

Lemma run_with_nothing_to_upload_witness :
  upload_files nested_only_world flat_args in_submission_order
  = (Ok true, [EvLog WARNING MsgNoFilesFound])
  /\ fst (main nested_only_world flat_args in_submission_order) = Ok 0%Z.
Proof.
  destruct (run_with_nothing_to_upload nested_only_world flat_args
              in_submission_order []) as [Hrun Hmain].
  - reflexivity.
  - reflexivity.
  - split; [exact Hrun|].
    apply Hmain; [reflexivity | discriminate | reflexivity].
Defined.

(** X16: called on a source path that does not exist, [upload_files] does
    not raise: the [FileNotFoundError] of the enumeration is caught, one
    error line is written, and the result is false. *)
Theorem upload_files_missing_source
    (w : World) (args : Args) (as_completed : list Future -> list Future)
    (src : path) :
  source args = Some src ->
  path_exists (fs w) src = false ->
  upload_files w args as_completed
  = (Ok false,
     [EvLog ERROR (MsgErrorDuringUpload
                     (FileNotFoundError ("Source path does not exist: "
                                         ++ str_of_path src)))]).
Proof.
  intros Hsrc Hmissing. unfold upload_files, get_files_to_upload.
  unfold path_exists in Hmissing. rewrite Hsrc.
  destruct (lookup (fs w) src); [discriminate|].
  reflexivity.
Qed.

Lemma upload_files_missing_source_witness :
  fst (upload_files sample_world missing_source_args in_submission_order)
  = Ok false.
Proof.
  rewrite (upload_files_missing_source sample_world missing_source_args
             in_submission_order ["nowhere"]); reflexivity.
Defined.

(* ================================================================== *)
(** ** A live run, in full *)

Section LiveRunInFull.

Variable w : World.

Lemma zsum_permutation (l l' : list Z) : Permutation l l' -> zsum l = zsum l'.
Proof.
  induction 1 as [|x l l' _ IH|x y l|l l' l'' _ IH1 _ IH2]; simpl;
    [reflexivity | now rewrite IH | lia | congruence].
Qed.

Lemma forallb_permutation {A : Type} (g : A -> bool) (l l' : list A) :
  Permutation l l' -> forallb g l = forallb g l'.
Proof.
  induction 1 as [|x l l' _ IH|x y l|l l' l'' _ IH1 _ IH2]; simpl;
    [reflexivity | now rewrite IH | | congruence].
  now rewrite !andb_assoc, (andb_comm (g y)).
Qed.

Lemma forallb_as_map {A : Type} (g : A -> bool) (l : list A) :
  forallb g l = forallb (fun b => b) (map g l).
Proof. induction l as [|x l IH]; simpl; [reflexivity | now rewrite IH]. Qed.

(** What the completion loop computes from the futures of a submission is a
    function of the tasks: the outcome of each upload and the file's path. *)
Lemma dict_from_values {B : Type} (h : result bool -> string -> B)
      (bucket : string) (dry : bool) (tasks : list (string * string)) :
  let d := dict_from w bucket dry 0 tasks in
  map (fun f => h (fresult f) (file_of d f)) (dict_keys d)
  = map (fun t => h (Ok (upload_outcome w (fst t) bucket (snd t) dry)) (fst t))
        tasks.
Proof.
  intros d. subst d. unfold dict_keys. rewrite map_map.
  rewrite (map_ext_in _ (fun fp : Future * string => h (fresult (fst fp)) (snd fp))).
  - unfold dict_from. generalize 0.
    induction tasks as [|t tasks' IH]; intros next; [reflexivity|].
    cbn [futures_from map combine fst snd fresult]. now rewrite IH.
  - intros [f p] Hin. cbn [fst snd].
    now rewrite (file_of_get _ _ _ (dict_get_dict_from w _ _ _ _ _ _ Hin)).
Qed.

(** One round of the completion loop adds the size of the file when it can
    be read. *)
Lemma handle_future_total (d : FutureDict) (st : RunState) (f : Future) (p : string) :
  dict_get d f = Ok p ->
  fst (handle_future w d st f)
  = Ok (fst st && future_good w p f, (snd st + future_size w p f)%Z).
Proof.
  intros Hget. unfold handle_future, future_good, future_size.
  rewrite Hget, bind_lift_ok. destruct st as [success total_size].
  destruct (fresult f) as [[|]|e]; destruct (getsize w p) as [z|e'];
    mrun; rewrite ?andb_true_r, ?andb_false_r, ?Z.add_0_r; reflexivity.
Qed.

Lemma collect_total (d : FutureDict) (order : list Future) :
  (forall f, In f order -> exists p, dict_get d f = Ok p) ->
  forall st,
    fst (collect w d order st)
    = Ok (fst st && forallb (fun f => future_good w (file_of d f) f) order,
          (snd st + zsum (map (fun f => future_size w (file_of d f) f) order))%Z).
Proof.
  induction order as [|f order IH]; intros Hin st.
  - simpl. rewrite andb_true_r, Z.add_0_r. now destruct st.
  - destruct (Hin f (or_introl eq_refl)) as (p & Hget).
    pose proof (handle_future_total d st f p Hget) as Hstep.
    cbn [collect]. erewrite bind_ok by exact Hstep. cbn [fst].
    rewrite (IH (fun g Hg => Hin g (or_intror Hg))).
    cbn [fst snd forallb map zsum fold_right].
    rewrite (file_of_get _ _ _ Hget), andb_assoc, Z.add_assoc. reflexivity.
Qed.

(** The summary line, spelled out. *)
Lemma print_summary_report_line (total_files : nat) (total_size : Z) (start now : Q) :
  exists s,
    print_summary_report total_files total_size start now
    = (Ok s, [EvLog INFO (MsgSummary total_files (format_size (inject_Z total_size))
                            (duration s) (format_size (avg_rate s))
                            (files_per_second s))])
    /\ duration s = (now - start)%Q
    /\ avg_rate s = (if Qlt_le_dec 0 (now - start)
                     then inject_Z total_size / (now - start) else 0)%Q.
Proof.
  unfold print_summary_report.
  destruct (Qlt_le_dec 0 (now - start)) as [Hpos | Hle].
  - rewrite !py_truediv_positive by assumption.
    exists {| duration := (now - start)%Q;
              avg_rate := (inject_Z total_size / (now - start))%Q;
              files_per_second :=
                (inject_Z (Z.of_nat total_files) / (now - start))%Q |}.
    repeat split.
  - exists {| duration := (now - start)%Q; avg_rate := 0%Q;
              files_per_second := 0%Q |}.
    repeat split.
Qed.

Lemma filter_writes_without_progress (t : list event) :
  filter is_network_write (without_progress t) = filter is_network_write t.
Proof.
  induction t as [|ev t IH]; [reflexivity|].
  destruct ev; simpl; now rewrite ?IH.
Qed.

Lemma filter_none {A : Type} (g : A -> bool) (l : list A) :
  existsb g l = false -> filter g l = [].
Proof.
  induction l as [|x l IH]; simpl; [reflexivity|].
  intros H. apply orb_false_iff in H as [Hx Hl]. now rewrite Hx, IH.
Qed.

Lemma upload_events_writes (bucket : string) (t : string * string) :
  filter is_network_write (upload_events w bucket false t) = task_writes w bucket t.
Proof.
  unfold upload_events, upload_file, task_writes.
  destruct (open_rb w (fst t)) as [[]|e1]; [|reflexivity].
  destruct (upload_fileobj w (fst t) bucket (snd t)) as [[]|e2]; reflexivity.
Qed.

Lemma flat_map_filter {A B : Type} (g : B -> bool) (h h' : A -> list B)
                      (l : list A) :
  (forall x, filter g (h x) = h' x) ->
  filter g (flat_map h l) = flat_map h' l.
Proof.
  intros Hh. induction l as [|x l IH]; [reflexivity|].
  cbn [flat_map]. now rewrite filter_app, Hh, IH.
Qed.

(** A live run over a non-empty enumeration, for any completion order that
    hands back every future once: its result, its trace and its summary. *)
Lemma upload_files_live_run
      (args : Args) (as_completed : list Future -> list Future)
      (src : path) (files : list (string * string)) :
  (forall l, Permutation (as_completed l) l) ->
  dry_run args = false ->
  source args = Some src ->
  get_files_to_upload (fs w) src (recursive args) = Ok files ->
  files <> [] ->
  let tasks := resolve_tasks args files in
  exists strace ctrace s,
    upload_files w args as_completed
    = (Ok (forallb (task_good w (bucket_str args) false) tasks),
       [EvLog INFO (MsgFoundFiles (length files));
        EvLog INFO (MsgUsingWorkers (Nat.min 32 (length files)));
        EvLog INFO MsgPreparing;
        EvLog INFO (MsgStartingExecutor (Nat.min 32 (length files)))]
       ++ strace
       ++ EvLog INFO MsgAllSubmitted
          :: ctrace
          ++ [EvLog INFO (MsgSummary (length files)
                            (format_size (inject_Z (total_bytes w tasks)))
                            (duration s) (format_size (avg_rate s))
                            (files_per_second s))])
    /\ without_progress strace
       = flat_map (upload_events w (bucket_str args) false) tasks
    /\ existsb is_network_write ctrace = false
    /\ duration s = (end_time w - start_time w)%Q
    /\ avg_rate s = (if Qlt_le_dec 0 (end_time w - start_time w)
                     then inject_Z (total_bytes w tasks)
                          / (end_time w - start_time w)
                     else 0)%Q.
Proof.
  intros Hperm Hdry Hsrc Hget Hne tasks.
  set (d := dict_from w (bucket_str args) (dry_run args) 0 tasks).
  destruct (submit_files_spec w (bucket_str args) (dry_run args) tasks)
    as (strace & Hsub & Hcalls & _).
  fold d in Hsub.
  assert (Hkeys : forall f, In f (as_completed (dict_keys d)) ->
                            exists p, dict_get d f = Ok p).
  { intros f Hf. apply (Permutation_in _ (Hperm _)) in Hf.
    apply dict_keys_In in Hf as (p & Hp).
    exists p. now apply dict_get_dict_from. }
  destruct (collect_spec w d _ Hkeys (true, 0%Z))
    as (total & ctrace & Hrun & _ & _ & Hnet).
  pose proof (collect_total d _ Hkeys (true, 0%Z)) as Htotal.
  rewrite Hrun in Htotal. cbn [fst snd andb] in Htotal.
  injection Htotal as Hsum.
  (* the conjunction and the sum do not depend on the order *)
  rewrite (zsum_permutation _ _ (Permutation_map _ (Hperm _))) in Hsum.
  unfold d, future_size in Hsum.
  rewrite (dict_from_values
             (fun r p => match r, getsize w p with
                         | Ok _, Ok z => z
                         | _, _ => 0%Z
                         end)) in Hsum.
  assert (Hgood' : forallb (fun f => future_good w (file_of d f) f)
                     (as_completed (dict_keys d))
                   = forallb (task_good w (bucket_str args) false) tasks).
  { rewrite (forallb_permutation _ _ _ (Hperm _)), forallb_as_map.
    unfold d, future_good.
    rewrite (dict_from_values
               (fun r p => match r, getsize w p with
                           | Ok true, Ok _ => true
                           | _, _ => false
                           end)).
    rewrite Hdry, (forallb_as_map (task_good w (bucket_str args) false)).
    reflexivity. }
  assert (Hsum' : total = total_bytes w tasks).
  { rewrite Hsum. reflexivity. }
  destruct (print_summary_report_line (length files) total
              (start_time w) (end_time w)) as (s & Hline & Hdur & Hrate).
  exists strace, ctrace, s.
  split; [|split; [now rewrite Hcalls, Hdry | split; [exact Hnet|]]].
  - pose proof (upload_live_with_run w args as_completed submit_files
                  files d strace Hne Hsub) as Hlive.
    fold (upload_live w args as_completed files) in Hlive.
    assert (Hcomplete :
              complete_run w as_completed (length files) d
              = (Ok (forallb (task_good w (bucket_str args) false) tasks),
                 EvLog INFO MsgAllSubmitted
                 :: ctrace
                 ++ [EvLog INFO (MsgSummary (length files)
                                   (format_size (inject_Z (total_bytes w tasks)))
                                   (duration s) (format_size (avg_rate s))
                                   (files_per_second s))])).
    { unfold complete_run. rewrite bind_log.
      erewrite bind_ok by (rewrite Hrun; reflexivity).
      rewrite Hrun. cbn [fst snd].
      erewrite bind_ok by (rewrite Hline; reflexivity).
      rewrite Hline, Hgood', Hsum'. reflexivity. }
    rewrite Hcomplete in Hlive. cbn [fst snd] in Hlive.
    rewrite (upload_files_live w args as_completed src files
               (forallb (task_good w (bucket_str args) false) tasks)
               Hsrc Hget Hne Hdry) by (now rewrite Hlive).
    exact Hlive.
  - rewrite <- Hsum'. split; [exact Hdur | exact Hrate].
Qed.

End LiveRunInFull.

(** X17: a live run returns true exactly when every enumerated file was
    uploaded successfully and its size could be read afterwards, in
    whatever order the uploads complete. *)
Theorem live_run_succeeds_iff_every_file_does
    (w : World) (args : Args) (as_completed : list Future -> list Future)
    (src : path) (files : list (string * string)) :
  (forall l, Permutation (as_completed l) l) ->
  dry_run args = false ->
  source args = Some src ->
  get_files_to_upload (fs w) src (recursive args) = Ok files ->
  (exists b, fst (upload_files w args as_completed) = Ok b)
  /\ (fst (upload_files w args as_completed) = Ok true
      <-> forall local_path key,
            In (local_path, key) files ->
            fst (upload_file w local_path (bucket_str args)
                             (full_s3_key (prefix args) key) false) = Ok true
            /\ exists z, getsize w local_path = Ok z).
Proof.
  intros Hperm Hdry Hsrc Hget.
  assert (Hcase : files = [] \/ files <> [])
    by (destruct files; [now left | right; discriminate]).
  destruct Hcase as [-> | Hne].
  - rewrite (upload_files_no_files w args as_completed src Hsrc Hget).
    split; [now exists true|]. split; [intros _ ? ? [] | reflexivity].
  - destruct (upload_files_live_run w args as_completed src files
                Hperm Hdry Hsrc Hget Hne)
      as (strace & ctrace & s & Hrun & _).
    rewrite Hrun. cbn [fst]. split; [now eexists|].
    split.
    + intros [= Hall] local_path key Hin.
      rewrite forallb_forall in Hall.
      specialize (Hall (local_path, full_s3_key (prefix args) key)).
      unfold task_good in Hall. cbn [fst snd] in Hall.
      assert (Hgood : In (local_path, full_s3_key (prefix args) key)
                         (resolve_tasks args files)).
      { unfold resolve_tasks. apply in_map_iff. now exists (local_path, key). }
      apply Hall, andb_prop in Hgood as [Hup Hsize].
      rewrite upload_file_total, Hup. split; [reflexivity|].
      destruct (getsize w local_path) as [z|]; [now exists z | discriminate].
    + intros Hall. f_equal. apply forallb_forall.
      intros t Ht. unfold resolve_tasks in Ht.
      apply in_map_iff in Ht as ([local_path key] & <- & Hin).
      destruct (Hall local_path key Hin) as [Hup (z & Hz)].
      assert (Hout : upload_outcome w local_path (bucket_str args)
                       (full_s3_key (prefix args) key) false = true)
        by (rewrite upload_file_total in Hup; congruence).
      unfold task_good. cbn [fst snd]. now rewrite Hout, Hz.
Qed.

Lemma live_run_succeeds_iff_every_file_does_witness :
  fst (upload_files sample_world sample_args in_reverse_order) = Ok true.
Proof.
  destruct (live_run_succeeds_iff_every_file_does
              sample_world sample_args in_reverse_order []
              [("a.txt", "a.txt"); ("sub/b.txt", "sub/b.txt")])
    as [_ Hiff].
  - intros l. apply Permutation_sym, Permutation_rev.
  - reflexivity.
  - reflexivity.
  - reflexivity.
  - apply Hiff. intros local_path key [[= <- <-] | [[= <- <-] | []]];
      (split; [reflexivity | eexists; reflexivity]).
Defined.

(** X18: order aside, the objects a live run sends are exactly one for
    each enumerated pair whose file could be opened, each to the bucket
    given in the arguments and under the key resolved from the prefix and
    the pair's relative key; so there are at most as many transfers as
    enumerated files. *)
Theorem live_run_network_writes
    (w : World) (args : Args) (as_completed : list Future -> list Future)
    (src : path) (files : list (string * string)) :
  (forall l, Permutation (as_completed l) l) ->
  dry_run args = false ->
  source args = Some src ->
  get_files_to_upload (fs w) src (recursive args) = Ok files ->
  Permutation
    (filter is_network_write (snd (upload_files w args as_completed)))
    (flat_map (task_writes w (bucket_str args)) (resolve_tasks args files))
  /\ length (filter is_network_write (snd (upload_files w args as_completed)))
     <= length files.
Proof.
  intros Hperm Hdry Hsrc Hget.
  assert (Hwrites :
            filter is_network_write (snd (upload_files w args as_completed))
            = flat_map (task_writes w (bucket_str args)) (resolve_tasks args files)).
  { assert (Hcase : files = [] \/ files <> [])
      by (destruct files; [now left | right; discriminate]).
    destruct Hcase as [-> | Hne].
    - now rewrite (upload_files_no_files w args as_completed src
                     Hsrc Hget).
    - destruct (upload_files_live_run w args as_completed src files
                  Hperm Hdry Hsrc Hget Hne)
        as (strace & ctrace & s & Hrun & Hcalls & Hnet & _).
      rewrite Hrun. cbn [snd app filter is_network_write].
      rewrite filter_app. cbn [filter is_network_write].
      rewrite filter_app, (filter_none _ _ Hnet). cbn [filter is_network_write app].
      rewrite app_nil_r, <- filter_writes_without_progress, Hcalls.
      apply flat_map_filter. intros t. apply upload_events_writes. }
  rewrite Hwrites. split; [apply Permutation_refl|].
  unfold resolve_tasks.
  induction files as [|f files' IH] in |- *; [apply Nat.le_refl|].
  cbn [map flat_map length]. rewrite length_app.
  unfold task_writes at 1. cbn [fst].
  destruct (open_rb w (fst f)); cbn [length]; lia.
Qed.

Lemma live_run_network_writes_witness :
  Permutation
    (filter is_network_write
            (snd (upload_files deleted_file_world sample_args in_reverse_order)))
    [EvPutObject "sub/b.txt" "mybucket" "data/sub/b.txt"].
Proof.
  destruct (live_run_network_writes
              deleted_file_world sample_args in_reverse_order []
              [("a.txt", "a.txt"); ("sub/b.txt", "sub/b.txt")])
    as [Hwrites _].
  - intros l. apply Permutation_sym, Permutation_rev.
  - reflexivity.
  - reflexivity.
  - reflexivity.
  - exact Hwrites.
Defined.

(** X19: a live run over at least one file ends with the summary line; it
    counts every enumerated file, and its total size is the sum of the
    sizes of the files whose size could be read (an upload that failed
    still counts when the file can be sized), whatever the completion
    order; the rate shown is that total over the elapsed time, or 0 when
    no time has passed. *)
Theorem live_run_summary_line
    (w : World) (args : Args) (as_completed : list Future -> list Future)
    (src : path) (files : list (string * string)) :
  (forall l, Permutation (as_completed l) l) ->
  dry_run args = false ->
  source args = Some src ->
  get_files_to_upload (fs w) src (recursive args) = Ok files ->
  files <> [] ->
  exists before s,
    snd (upload_files w args as_completed)
    = before
      ++ [EvLog INFO (MsgSummary (length files)
                        (format_size
                           (inject_Z (total_bytes w (resolve_tasks args files))))
                        (duration s) (format_size (avg_rate s))
                        (files_per_second s))]
    /\ duration s = (end_time w - start_time w)%Q
    /\ avg_rate s = (if Qlt_le_dec 0 (end_time w - start_time w)
                     then inject_Z (total_bytes w (resolve_tasks args files))
                          / (end_time w - start_time w)
                     else 0)%Q.
Proof.
  intros Hperm Hdry Hsrc Hget Hne.
  destruct (upload_files_live_run w args as_completed src files
              Hperm Hdry Hsrc Hget Hne)
    as (strace & ctrace & s & Hrun & _ & _ & Hdur & Hrate).
  rewrite Hrun. cbn [snd].
  eexists. exists s. split; [|split; [exact Hdur | exact Hrate]].
  rewrite app_comm_cons, !app_assoc. reflexivity.
Qed.

Lemma live_run_summary_line_witness :
  total_bytes deleted_file_world (resolve_tasks sample_args
                 [("a.txt", "a.txt"); ("sub/b.txt", "sub/b.txt")]) = 20%Z
  /\ exists before s,
       snd (upload_files deleted_file_world sample_args in_reverse_order)
       = before
         ++ [EvLog INFO (MsgSummary 2 (format_size (inject_Z 20))
                           (duration s) (format_size (avg_rate s))
                           (files_per_second s))].
Proof.
  split; [reflexivity|].
  destruct (live_run_summary_line
              deleted_file_world sample_args in_reverse_order []
              [("a.txt", "a.txt"); ("sub/b.txt", "sub/b.txt")])
    as (before & s & Htrace & _).
  - intros l. apply Permutation_sym, Permutation_rev.
  - reflexivity.
  - reflexivity.
  - reflexivity.
  - discriminate.
  - exists before, s. exact Htrace.
Defined.



(* ================================================================== *)
(** ** One live upload, and the preview of a run *)

(** X21: a live upload of one file returns true exactly when the file
    opens and the transfer returns; the transfer is attempted only after
    the file has been opened, so a file that cannot be opened is never
    sent; the size of the file is not asked for here. *)
Theorem upload_file_live (w : World) (local_path bucket s3_key : string) :
  (fst (upload_file w local_path bucket s3_key false) = Ok true
   <-> (exists u, open_rb w local_path = Ok u)
       /\ (exists u, upload_fileobj w local_path bucket s3_key = Ok u))
  /\ (In (EvPutObject local_path bucket s3_key)
         (snd (upload_file w local_path bucket s3_key false))
      <-> exists u, open_rb w local_path = Ok u)
  /\ In (EvOpen local_path) (snd (upload_file w local_path bucket s3_key false))
  /\ ~ In (EvGetSize local_path)
          (snd (upload_file w local_path bucket s3_key false)).
Proof.
  unfold upload_file.
  destruct (open_rb w local_path) as [[]|e1];
    [destruct (upload_fileobj w local_path bucket s3_key) as [[]|e2]|];
    mrun; repeat split; intros;
    repeat match goal with
           | H : _ /\ _ |- _ => destruct H
           | H : exists _, _ |- _ => destruct H
           end;
    try discriminate; try (eexists; reflexivity); try reflexivity;
    try (simpl in *; intuition (try discriminate; eauto)).
Qed.

Section Preview.

Variable w : World.
Variable args : Args.
Variable as_completed : list Future -> list Future.

Lemma task_writes_planned (b : string) (files : list (string * string))
      (local_path bkt key : string) :
  In (EvPutObject local_path bkt key)
     (flat_map (task_writes w b) (resolve_tasks args files)) ->
  bkt = b /\ exists rel, In (local_path, rel) files
                         /\ key = full_s3_key (prefix args) rel.
Proof.
  intros Hin. apply in_flat_map in Hin as (t & Ht & Hin).
  unfold resolve_tasks in Ht. apply in_map_iff in Ht as ([lp rel] & <- & Hf).
  unfold task_writes in Hin. cbn [fst snd] in Hin.
  destruct (open_rb w lp); [|contradiction].
  destruct Hin as [[= <- <- <-] | []].
  split; [reflexivity|]. now exists rel.
Qed.

End Preview.

(** X22: the preview is faithful: every object a live run sends was
    announced, with the same local file, bucket and key, by the dry run
    with otherwise the same arguments. *)
Theorem dry_run_announces_live_writes
    (w : World) (args : Args) (as_completed : list Future -> list Future)
    (src : path) (local_path bkt key : string) :
  (forall l, Permutation (as_completed l) l) ->
  source args = Some src ->
  path_exists (fs w) src = true ->
  In (EvPutObject local_path bkt key)
     (snd (upload_files w (with_dry_run false args) as_completed)) ->
  In (EvLog INFO (MsgPlanned local_path bkt key))
     (snd (upload_files w (with_dry_run true args) as_completed)).
Proof.
  intros Hperm Hsrc Hexists Hsent.
  destruct (get_files_to_upload_existing (fs w) src (recursive args) Hexists)
    as (files & Hget).
  assert (Hwrites :
            filter is_network_write
                   (snd (upload_files w (with_dry_run false args) as_completed))
            = flat_map (task_writes w (bucket_str args))
                       (resolve_tasks args files)).
  { assert (Hcase : files = [] \/ files <> [])
      by (destruct files; [now left | right; discriminate]).
    destruct Hcase as [-> | Hne].
    - now rewrite (upload_files_no_files w (with_dry_run false args)
                     as_completed src Hsrc Hget).
    - destruct (upload_files_live_run w (with_dry_run false args) as_completed
                  src files Hperm eq_refl Hsrc Hget Hne)
        as (strace & ctrace & s & Hrun & Hcalls & Hnet & _).
      rewrite Hrun. cbn [snd app filter is_network_write].
      rewrite filter_app. cbn [filter is_network_write].
      rewrite filter_app, (filter_none _ _ Hnet). cbn [filter is_network_write app].
      rewrite app_nil_r, <- filter_writes_without_progress, Hcalls.
      apply flat_map_filter. intros t. apply upload_events_writes. }
  assert (Hin : In (EvPutObject local_path bkt key)
                   (flat_map (task_writes w (bucket_str args))
                             (resolve_tasks args files))).
  { rewrite <- Hwrites. apply filter_In. now split. }
  apply task_writes_planned in Hin as (-> & rel & Hfile & ->).
  rewrite (upload_files_dry_run w (with_dry_run true args) as_completed src files
             eq_refl Hsrc Hget).
  cbn [snd]. destruct files as [|f files']; [contradiction|].
  right. apply in_map_iff. now exists (local_path, rel).
Qed.

Lemma dry_run_announces_live_writes_witness :
  In (EvLog INFO (MsgPlanned "sub/b.txt" "mybucket" "data/sub/b.txt"))
     (snd (upload_files sample_world (with_dry_run true sample_args)
                        in_submission_order)).
Proof.
  apply (dry_run_announces_live_writes sample_world sample_args
           in_submission_order []).
  - intros l. apply Permutation_refl.
  - reflexivity.
  - reflexivity.
  - vm_compute. tauto.
Defined.

Lemma upload_file_live_witness :
  fst (upload_file deleted_file_world "a.txt" "mybucket" "data/a.txt" false)
  <> Ok true
  /\ ~ In (EvPutObject "a.txt" "mybucket" "data/a.txt")
          (snd (upload_file deleted_file_world "a.txt" "mybucket" "data/a.txt"
                            false)).
Proof.
  destruct (upload_file_live deleted_file_world "a.txt" "mybucket" "data/a.txt")
    as (Hok & Hput & _).
  split.
  - intros H. apply Hok in H as [[u Hu] _]. discriminate.
  - intros H. apply Hput in H as [u Hu]. discriminate.
Defined.

(* ================================================================== *)
(** ** The enumerator when file-system calls can fail *)

Section FailingCalls.

Variable o : OsView.




Lemma listable_fault_free (source q : path) :
  (forall p, cannot_list o p = false) -> listable o source q = true.
Proof.
  intros Hlist. unfold listable. apply forallb_forall.
  intros k _. now rewrite Hlist.
Qed.

Lemma filter_all {A : Type} (g : A -> bool) (l : list A) :
  (forall x, In x l -> g x = true) -> filter g l = l.
Proof.
  induction l as [|x l IH]; intros Hg; [reflexivity|]. simpl.
  rewrite (Hg x (or_introl eq_refl)), IH; [reflexivity|].
  intros y Hy. apply Hg. now right.
Qed.

(** When every entry's [stat] gives the entry, the loop is the filter of
    the tree model. *)
Lemma collect_files_plain (source : path) (entries : list (path * node)) :
  (forall p, stat_fault o p = None) ->
  (forall q n, In (q, n) entries -> lookup (os_tree o) (source ++ q) = Some n) ->
  collect_files o source entries
  = Ok (map (fun pe : path * node =>
               (str_of_path (source ++ fst pe), str_of_path (fst pe)))
            (filter (fun pe => is_file (snd pe)) entries)).
Proof.
  intros Hstat. induction entries as [|[q n] rest IH]; intros Hl; [reflexivity|].
  cbn [collect_files filter snd].
  unfold os_is_file, os_stat.
  rewrite Hstat, (Hl q n (or_introl eq_refl)).
  rewrite IH by (intros q' n' Hin; apply Hl; now right).
  destruct (is_file n); reflexivity.
Qed.

(** On a file system where no call fails and names are unique within each
    directory, the enumerator is the one of the tree model. *)
Lemma get_files_to_upload_os_fault_free (source : path) (recursive : bool) :
  fault_free o ->
  unique_names (os_tree o) ->
  get_files_to_upload_os o source recursive
  = get_files_to_upload (os_tree o) source recursive.
Proof.
  intros [Hstat Hlist] Hu.
  unfold get_files_to_upload_os, get_files_to_upload, os_exists, os_is_file,
    os_stat, os_glob.
  rewrite Hstat.
  destruct (lookup (os_tree o) source) as [n|] eqn:Hl; [|reflexivity].
  cbn [ignore_error].
  assert (Hloop :
            collect_files o source
              (filter (fun pe => listable o source (fst pe)) (glob n recursive))
            = Ok (map (fun pe : path * node =>
                         (str_of_path (source ++ fst pe), str_of_path (fst pe)))
                      (filter (fun pe => is_file (snd pe)) (glob n recursive)))).
  { rewrite filter_all by (intros x _; now apply listable_fault_free).
    apply collect_files_plain; [exact Hstat|].
    intros q m Hin. rewrite lookup_app, Hl.
    exact (proj2 (glob_sound n m recursive q
                    (unique_names_lookup _ _ _ Hu Hl) Hin)). }
  destruct n as [size| |es]; [reflexivity | exact Hloop | exact Hloop].
Qed.

End FailingCalls.



